(** * A shallow embedding of [src/utils/imageProcessor.ts]

    The module pairs two collections of photographs, draws every pair side by
    side on a 1920x1080 canvas and reports progress.  The development follows
    the source function by function:

    - [JsString]: the two string operations the pairer uses ([split] and the
      template literal);
    - [Canvas2D]: the fragment of the 2D canvas API the compositor calls
      (current transformation matrix, save/restore, the drawing calls);
    - [ImageProcessor]: [drawImage], [checkBothLoaded],
      [createCombinedImage] and [processImages].

    Conventions.  JavaScript numbers are modelled as real numbers: the
    arithmetic is exact and the rounding of IEEE doubles is outside the model.
    Strings are sequences of 8-bit characters; the separators the code splits
    on are ASCII.  Everything the browser decides (collation order, image
    decoding, text metrics, JPEG encoding) is a field of the [Host] record. *)

From Stdlib Require Import Reals Lra Lia ZArith List Sorting.Sorted Sorting.Permutation.
From Stdlib Require Import Ascii.
From Stdlib Require String OrderedTypeEx.
From stdpp Require Import base option list gmap strings.
Import ListNotations.

(* ------------------------------------------------------------------------- *)
(** ** Strings *)

Module JsString.

(** [s.split(sep)] for a non-empty separator.  The scan goes left to right;
    [skip] counts the characters of a separator that was just matched and
    still has to be stepped over.  The result is never empty: its head is the
    text before the first occurrence of [sep]. *)
Fixpoint splitFrom (sep s : string) (skip : nat) : list string :=
  match s with
  | EmptyString => [EmptyString]
  | String c s' =>
      match skip with
      | S k => splitFrom sep s' k
      | O =>
          if String.prefix sep s
          then EmptyString :: splitFrom sep s' (String.length sep - 1)
          else match splitFrom sep s' 0 with
               | piece :: pieces => String c piece :: pieces
               | [] => [String c EmptyString]
               end
      end
  end.

Definition split (sep s : string) : list string := splitFrom sep s 0.

(** Interpolation of a possibly missing array element in a template literal:
    [undefined] prints as the nine letters "undefined". *)
Definition template (x : option string) : string :=
  match x with
  | Some s => s
  | None => "undefined"
  end.

(** JavaScript truthiness of a string-or-undefined value. *)
Definition truthy (x : option string) : bool :=
  match x with
  | Some EmptyString => false
  | Some _ => true
  | None => false
  end.

(** [a || b] on string-or-undefined operands, [b] a string. *)
Definition orElse (x : option string) (d : string) : string :=
  match x with
  | Some EmptyString => d
  | Some s => s
  | None => d
  end.

Definition underscore : string := "_".
Definition marker : string := "_01".

End JsString.

(* ------------------------------------------------------------------------- *)
(** ** The 2D canvas *)

Module Canvas2D.
Local Open Scope R_scope.

(** The current transformation matrix, with the six entries of a
    [DOMMatrix]: a point [(x, y)] of user space goes to
    [(a x + c y + e, b x + d y + f)]. *)
Record Matrix := mkMatrix { ma : R; mb : R; mc : R; md : R; me : R; mf : R }.

Definition identity : Matrix := mkMatrix 1 0 0 1 0 0.

(** [multiply m n] applies [n] first and [m] second; every canvas call
    post-multiplies the current matrix. *)
Definition multiply (m n : Matrix) : Matrix :=
  {| ma := ma m * ma n + mc m * mb n;
     mb := mb m * ma n + md m * mb n;
     mc := ma m * mc n + mc m * md n;
     md := mb m * mc n + md m * md n;
     me := ma m * me n + mc m * mf n + me m;
     mf := mb m * me n + md m * mf n + mf m |}.

Definition translation (tx ty : R) : Matrix := mkMatrix 1 0 0 1 tx ty.
Definition rotation (angle : R) : Matrix :=
  mkMatrix (cos angle) (sin angle) (- sin angle) (cos angle) 0 0.
Definition scaling (sx sy : R) : Matrix := mkMatrix sx 0 0 sy 0 0.

Definition apply (m : Matrix) (p : R * R) : R * R :=
  (ma m * fst p + mc m * snd p + me m, mb m * fst p + md m * snd p + mf m).

(** The parsed value of [ctx.font]: the style keywords, the size in pixels
    and the family. *)
Record Font := mkFont
  { fontStyle : list string; fontSize : R; fontFamily : string }.

Record HTMLImageElement := mkImage
  { img_src : string; img_width : R; img_height : R }.

(** The part of the drawing state that [save] and [restore] handle. *)
Record DrawState := mkDrawState
  { ctm : Matrix;
    fillStyle : string;
    strokeStyle : string;
    lineWidth : R;
    font : Font }.

(** A drawing call, with the drawing state it was issued in. *)
Inductive DrawOp :=
| FillRect (st : DrawState) (x y w h : R)
| DrawImage (st : DrawState) (img : HTMLImageElement) (dx dy dw dh : R)
| StrokeText (st : DrawState) (text : string) (x y : R)
| FillText (st : DrawState) (text : string) (x y : R).

(** A canvas with its context: the bitmap is the chronological list of the
    drawing calls made on it. *)
Record Canvas := mkCanvas
  { width : R;
    height : R;
    state : DrawState;
    stack : list DrawState;
    ops : list DrawOp }.

Definition initialState : DrawState :=
  mkDrawState identity "#000000" "#000000" 1 (mkFont [] 10 "sans-serif").

Definition newCanvas (w h : R) : Canvas := mkCanvas w h initialState [] [].

Definition withState (f : DrawState -> DrawState) (c : Canvas) : Canvas :=
  mkCanvas (width c) (height c) (f (state c)) (stack c) (ops c).

Definition transform (m : Matrix) : Canvas -> Canvas :=
  withState (fun st =>
    mkDrawState (multiply (ctm st) m) (fillStyle st) (strokeStyle st)
      (lineWidth st) (font st)).

Definition translate (tx ty : R) : Canvas -> Canvas := transform (translation tx ty).
Definition rotate (angle : R) : Canvas -> Canvas := transform (rotation angle).
Definition scale (sx sy : R) : Canvas -> Canvas := transform (scaling sx sy).

(** The style setters take the string to be a CSS colour, and [setFont] the
    font to be a CSS font: the context ignores an assignment that does not
    parse, and parsing is not modelled, so the model is exact for values
    that parse.  Where a property states a colour, it is one of the code's
    own literals. *)
Definition setFillStyle (s : string) : Canvas -> Canvas :=
  withState (fun st =>
    mkDrawState (ctm st) s (strokeStyle st) (lineWidth st) (font st)).
Definition setStrokeStyle (s : string) : Canvas -> Canvas :=
  withState (fun st =>
    mkDrawState (ctm st) (fillStyle st) s (lineWidth st) (font st)).
(** Assigning a width that is not positive is ignored. *)
Definition setLineWidth (w : R) : Canvas -> Canvas :=
  withState (fun st =>
    mkDrawState (ctm st) (fillStyle st) (strokeStyle st)
      (if Rlt_dec 0 w then w else lineWidth st) (font st)).
Definition setFont (f : Font) : Canvas -> Canvas :=
  withState (fun st =>
    mkDrawState (ctm st) (fillStyle st) (strokeStyle st) (lineWidth st) f).

Definition save (c : Canvas) : Canvas :=
  mkCanvas (width c) (height c) (state c) (state c :: stack c) (ops c).

(** [restore] on an empty stack does nothing. *)
Definition restore (c : Canvas) : Canvas :=
  match stack c with
  | [] => c
  | st :: rest => mkCanvas (width c) (height c) st rest (ops c)
  end.

Definition emit (op : DrawState -> DrawOp) (c : Canvas) : Canvas :=
  mkCanvas (width c) (height c) (state c) (stack c) (ops c ++ [op (state c)]).

Definition fillRect (x y w h : R) : Canvas -> Canvas :=
  emit (fun st => FillRect st x y w h).
Definition drawImage (img : HTMLImageElement) (dx dy dw dh : R) : Canvas -> Canvas :=
  emit (fun st => DrawImage st img dx dy dw dh).
Definition strokeText (text : string) (x y : R) : Canvas -> Canvas :=
  emit (fun st => StrokeText st text x y).
Definition fillText (text : string) (x y : R) : Canvas -> Canvas :=
  emit (fun st => FillText st text x y).

Definition isFillText (op : DrawOp) : bool :=
  match op with FillText _ _ _ _ => true | _ => false end.
Definition isDrawImage (op : DrawOp) : bool :=
  match op with DrawImage _ _ _ _ _ _ => true | _ => false end.

End Canvas2D.

(* ------------------------------------------------------------------------- *)
(** ** The image processor *)

Module ImageProcessor.
Import JsString.
Local Open Scope R_scope.

(** *** Data

    The module imports [FileData], [ProcessedImage] and [TextOptions] from
    [../types], which is not among the sources.  Two objects have a field
    [position]: the offset of a [Transform] keeps the name, the anchor of
    [TextOptions] is [position_]. *)

(** Modelled from the spec: the offset [{x, y}] of a [Transform] (section 3);
    its type declaration is in [../types]. *)
Record Point := mkPoint { pos_x : R; pos_y : R }.

(** Modelled from the spec: the type of [FileData.transform], declared in
    [../types]: rotation in degrees, scale, offset (section 3), under the
    field names the code reads. *)
Record Transform := mkTransform
  { rotation : R; scale : R; position : Point }.

(** Modelled from the spec: [FileData] of [../types], the SourcePhoto of
    section 3: a name, a reference to the raster ([preview], the source the
    image is loaded from) and an optional transform. *)
Record FileData := mkFileData
  { name : string; preview : string; transform : option Transform }.

(** Modelled from the spec: the four anchors of [TextOptions.position]
    (section 3), declared in [../types]. *)
Inductive Position := TopLeft | TopRight | BottomLeft | BottomRight.

(** Modelled from the spec: [TextOptions] of [../types] (section 3), under
    the field names the code reads ([size], [strokeWidth]). *)
Record TextOptions := mkTextOptions
  { enabled : bool;
    text : option string;
    font : string;
    size : R;
    bold : bool;
    italic : bool;
    color : option string;
    position_ : Position;
    stroke : bool;
    strokeColor : option string;
    strokeWidth : option R }.

(** Modelled from the spec: [ProcessedImage] of [../types], the
    CompositeResult of section 3, with the fields line 161 fills in; [name]
    is [pname] here and the nested [transform: {left, right}] is the pair
    [transformLeft], [transformRight]. *)
Record ProcessedImage := mkProcessedImage
  { dataUrl : string;
    pname : string;
    leftPhoto : string;
    rightPhoto : string;
    textOptions : option TextOptions;
    transformLeft : option Transform;
    transformRight : option Transform }.

(** A settled promise. *)
Inductive Promise (A : Type) :=
| Resolved (value : A)
| Rejected (message : string).
Arguments Resolved {A} value.
Arguments Rejected {A} message.

(** What the browser decides.  [localeCompare] is the collation of
    [String.prototype.localeCompare]; [getContext] tells whether
    [canvas.getContext('2d')] yields a context (the same answer for every
    canvas of a run); [loadImage src] is the outcome of assigning [src] to a
    fresh image: the decoded element ([onload]) or nothing ([onerror]), and
    every load is assumed to settle; when both loads of a pair fail,
    [leftErrorFirst] tells whose [onerror] runs first, and that one settles
    the promise; [measureText font text] is [ctx.measureText(text).width]
    under [font]; [toDataURL] is the JPEG encoding at quality 0.9. *)
Record Host := mkHost
  { localeCompare : string -> string -> Z;
    getContext : bool;
    loadImage : string -> option Canvas2D.HTMLImageElement;
    leftErrorFirst : string -> string -> bool;
    measureText : Canvas2D.Font -> string -> R;
    toDataURL : Canvas2D.Canvas -> string }.

(** *** Arrays

    [Array.prototype.sort] with a comparator: the element [a] goes before
    [b] when [cmp a b <= 0] and [a] came first, which is the stable order
    the language prescribes for a consistent comparator. *)
Section Sort.
Context {A : Type} (cmp : A -> A -> Z).

Fixpoint insertSorted (a : A) (l : list A) : list A :=
  match l with
  | [] => [a]
  | b :: l' => if (cmp a b <=? 0)%Z then a :: l else b :: insertSorted a l'
  end.

Definition sort (l : list A) : list A := foldr insertSorted [] l.
End Sort.

(** The arrays live in a store, so that copying ([[...arr]]) and sorting in
    place are told apart. *)
Abbreviation loc := nat.
Abbreviation Store := (gmap loc (list FileData)).

Definition readArray (arr : loc) (σ : Store) : list FileData :=
  default [] (σ !! arr).

(** [[...arr]]: a fresh array with the same elements. *)
Definition spread (arr : loc) (σ : Store) : loc * Store :=
  let l := fresh (dom σ) in (l, <[l := readArray arr σ]> σ).

(** [arr.sort(cmp)]: sorts in place and returns the same array. *)
Definition sortInPlace (cmp : FileData -> FileData -> Z) (arr : loc) (σ : Store)
  : loc * Store :=
  (arr, <[arr := sort cmp (readArray arr σ)]> σ).

(** *** [drawImage], the closure of [checkBothLoaded] (lines 72-107) *)
Definition drawImage (img : Canvas2D.HTMLImageElement) (x : R)
    (transform : option Transform) (canvas : Canvas2D.Canvas) : Canvas2D.Canvas :=
  let halfWidth := Canvas2D.width canvas / 2 in
  let ctx := Canvas2D.save canvas in
  (* Move to the center of the respective half *)
  let ctx := Canvas2D.translate (x + halfWidth / 2) (Canvas2D.height canvas / 2) ctx in
  (* Apply transformations if they exist *)
  let ctx :=
    match transform with
    | Some t =>
        let ctx := Canvas2D.rotate (rotation t * PI / 180) ctx in
        let ctx := Canvas2D.scale (scale t) (scale t) ctx in
        Canvas2D.translate (pos_x (position t)) (pos_y (position t)) ctx
    | None => ctx
    end in
  (* Move back *)
  let ctx := Canvas2D.translate (- halfWidth / 2) (- Canvas2D.height canvas / 2) ctx in
  (* Calculate dimensions while maintaining aspect ratio *)
  let imgRatio := Canvas2D.img_width img / Canvas2D.img_height img in
  let drawWidth := halfWidth in
  let drawHeight := Canvas2D.height canvas in
  let '(drawWidth, drawHeight) :=
    if Rgt_dec imgRatio (halfWidth / Canvas2D.height canvas)
    then (drawHeight * imgRatio, drawHeight)
    else (drawWidth, drawWidth / imgRatio) in
  (* Center the image in its half *)
  let drawX := x + (halfWidth - drawWidth) / 2 in
  let drawY := (Canvas2D.height canvas - drawHeight) / 2 in
  let ctx := Canvas2D.drawImage img drawX drawY drawWidth drawHeight ctx in
  Canvas2D.restore ctx.

(** [x || d] on a number-or-undefined operand: [0] is falsy. *)
Definition numberOrElse (x : option R) (d : R) : R :=
  match x with
  | Some v => if Req_dec_T v 0 then d else v
  | None => d
  end.

(** *** The text overlay (lines 116-157) *)
Definition drawText (h : Host) (textOptions : TextOptions) (text : string)
    (canvas : Canvas2D.Canvas) : Canvas2D.Canvas :=
  let fontStyle :=
    (if bold textOptions then ["bold"] else []) ++
    (if italic textOptions then ["italic"] else []) in
  let ctx :=
    Canvas2D.setFont
      (Canvas2D.mkFont fontStyle (size textOptions) (font textOptions)) canvas in
  let ctx := Canvas2D.setFillStyle (orElse (color textOptions) "#000000") ctx in
  let metrics_width := measureText h (Canvas2D.font (Canvas2D.state ctx)) text in
  let textHeight := size textOptions in
  let '(textX, textY) :=
    match position_ textOptions with
    | TopLeft => (20, textHeight + 20)
    | TopRight => (Canvas2D.width canvas - metrics_width - 20, textHeight + 20)
    | BottomLeft => (20, Canvas2D.height canvas - 20)
    | BottomRight =>
        (Canvas2D.width canvas - metrics_width - 20, Canvas2D.height canvas - 20)
    end in
  let ctx :=
    if stroke textOptions then
      let ctx := Canvas2D.setStrokeStyle (orElse (strokeColor textOptions) "#FFFFFF") ctx in
      let ctx := Canvas2D.setLineWidth (numberOrElse (strokeWidth textOptions) 2) ctx in
      Canvas2D.strokeText text textX textY ctx
    else ctx in
  Canvas2D.fillText text textX textY ctx.

(** *** [checkBothLoaded], once both images are there (lines 70-173): the
    canvas after the two photos and the text are drawn *)
Definition checkBothLoaded (h : Host)
    (leftImg rightImg : Canvas2D.HTMLImageElement) (leftFile rightFile : FileData)
    (textOptions : option TextOptions) (canvas : Canvas2D.Canvas) : Canvas2D.Canvas :=
  (* Draw left image *)
  let canvas := drawImage leftImg 0 (transform leftFile) canvas in
  (* Draw right image *)
  let canvas := drawImage rightImg (Canvas2D.width canvas / 2) (transform rightFile) canvas in
  (* Add text if enabled *)
  match textOptions with
  | Some opts =>
      if enabled opts && truthy (text opts)
      then drawText h opts (default EmptyString (text opts)) canvas
      else canvas
  | None => canvas
  end.

Definition blankCanvas : Canvas2D.Canvas :=
  let canvas := Canvas2D.newCanvas 1920 1080 in
  let ctx := Canvas2D.setFillStyle "#FFFFFF" canvas in
  Canvas2D.fillRect 0 0 (Canvas2D.width canvas) (Canvas2D.height canvas) ctx.

Definition leftError (leftFile : FileData) : string :=
  "Failed to load left image: " +:+ name leftFile.
Definition rightError (rightFile : FileData) : string :=
  "Failed to load right image: " +:+ name rightFile.

(** *** [createCombinedImage] (lines 43-191) *)
Definition createCombinedImage (h : Host) (leftFile rightFile : FileData)
    (name : string) (textOptions : option TextOptions) : Promise ProcessedImage :=
  if negb (getContext h) then Rejected "Could not get canvas context"
  else
    let canvas := blankCanvas in
    match loadImage h (preview leftFile), loadImage h (preview rightFile) with
    | Some leftImg, Some rightImg =>
        let canvas :=
          checkBothLoaded h leftImg rightImg leftFile rightFile textOptions canvas in
        Resolved
          {| dataUrl := toDataURL h canvas;
             pname := name;
             leftPhoto := preview leftFile;
             rightPhoto := preview rightFile;
             textOptions := textOptions;
             transformLeft := transform leftFile;
             transformRight := transform rightFile |}
    | None, Some _ => Rejected (leftError leftFile)
    | Some _, None => Rejected (rightError rightFile)
    | None, None =>
        if leftErrorFirst h (preview leftFile) (preview rightFile)
        then Rejected (leftError leftFile)
        else Rejected (rightError rightFile)
    end.

(** *** [processImages] (lines 4-41) *)

(** Lines 17-20. *)
Definition formattedName (fileName : string) : string :=
  let nameParts := split underscore (default EmptyString (head (split marker fileName))) in
  let lastName := nameParts !! 0%nat in
  let firstName := nameParts !! 1%nat in
  template firstName +:+ " " +:+ template lastName.

(** Lines 22-26. *)
Definition textOpts (globalTextOptions : TextOptions) (formattedName : string)
  : TextOptions :=
  {| enabled := enabled globalTextOptions;
     text := Some (if enabled globalTextOptions
                   then orElse (text globalTextOptions) formattedName
                   else formattedName);
     font := font globalTextOptions;
     size := size globalTextOptions;
     bold := bold globalTextOptions;
     italic := italic globalTextOptions;
     color := Some (orElse (color globalTextOptions) "#000000");
     position_ := position_ globalTextOptions;
     stroke := stroke globalTextOptions;
     strokeColor := strokeColor globalTextOptions;
     strokeWidth := strokeWidth globalTextOptions |}.

Definition progressValue (i totalImages : nat) : R :=
  INR (i + 1) / INR totalImages * 100.

(** The [for] loop of lines 16-38, with [fuel = totalImages - i] iterations
    left.  The first component lists the arguments [onProgress] was called
    with, in order. *)
Fixpoint processLoop (h : Host) (sortedBabyPhotos sortedCurrentPhotos : list FileData)
    (globalTextOptions : TextOptions) (totalImages : nat)
    (fuel i : nat) (results : list ProcessedImage)
  : list R * Promise (list ProcessedImage) :=
  match fuel with
  | O => ([], Resolved results)
  | S fuel' =>
      match sortedBabyPhotos !! i, sortedCurrentPhotos !! i with
      | Some baby, Some current =>
          let formattedName := formattedName (name baby) in
          match createCombinedImage h baby current formattedName
                  (Some (textOpts globalTextOptions formattedName)) with
          | Resolved result =>
              let '(progress, outcome) :=
                processLoop h sortedBabyPhotos sortedCurrentPhotos
                  globalTextOptions totalImages fuel' (S i) (results ++ [result]) in
              (progressValue i totalImages :: progress, outcome)
          | Rejected e => ([], Rejected e)
          end
      | _, _ => ([], Rejected "TypeError: Cannot read properties of undefined")
      end
  end.

Definition byName (h : Host) (a b : FileData) : Z :=
  localeCompare h (name a) (name b).

(** The result is the store after the call, the progress reports and the
    settled promise. *)
Definition processImages (h : Host) (babyPhotos currentPhotos : loc)
    (globalTextOptions : TextOptions) (σ : Store)
  : Store * list R * Promise (list ProcessedImage) :=
  let totalImages :=
    Nat.min (length (readArray babyPhotos σ)) (length (readArray currentPhotos σ)) in
  let '(copy, σ) := spread babyPhotos σ in
  let '(sortedBabyPhotos, σ) := sortInPlace (byName h) copy σ in
  let '(copy, σ) := spread currentPhotos σ in
  let '(sortedCurrentPhotos, σ) := sortInPlace (byName h) copy σ in
  let '(progress, outcome) :=
    processLoop h (readArray sortedBabyPhotos σ) (readArray sortedCurrentPhotos σ)
      globalTextOptions totalImages totalImages 0 [] in
  (σ, progress, outcome).

(** *** [downloadAsZip] (lines 193-213)

    One call [zip.file(fileName, data, { base64: true })] per image, in the
    order of the [forEach].  [data] is element 1 of [dataUrl.split(',')]: it
    is [undefined] when the data URL holds no comma.  What JSZip and the
    browser do with the calls (building the archive, the object URL, the
    click on the link) is theirs; the model keeps the calls and the name the
    download is offered under. *)
Definition comma : string := ",".

Record ZipFileCall := mkZipFileCall
  { fileName : string; data : option string; base64 : bool }.

Definition zipFile (image : ProcessedImage) : ZipFileCall :=
  let fileName := pname image +:+ "_combined.jpg" in
  let data := split comma (dataUrl image) !! 1%nat in
  {| fileName := fileName; data := data; base64 := true |}.

Definition downloadAsZip (images : list ProcessedImage) : list ZipFileCall * string :=
  (zipFile <$> images, "processed_images.zip").

End ImageProcessor.

(* ------------------------------------------------------------------------- *)
(** * Vocabulary of the properties *)

Import JsString.
Import ImageProcessor.

(** ** Sorting, pairs and progress *)

(** A consistent comparator: any two elements are comparable and the order
    is transitive. *)
Definition Consistent {A : Type} (cmp : A -> A -> Z) : Prop :=
  (forall a b, (cmp a b <= 0)%Z \/ (cmp b a <= 0)%Z) /\
  (forall a b c, (cmp a b <= 0)%Z -> (cmp b c <= 0)%Z -> (cmp a c <= 0)%Z).

Definition ascending {A : Type} (cmp : A -> A -> Z) (a b : A) : Prop :=
  (cmp a b <= 0)%Z.

Definition loads (h : Host) (f : FileData) : Prop :=
  is_Some (loadImage h (preview f)).

(** The photos of the first [n] pairs load. *)
Definition pairsLoad (h : Host) (left right : list FileData) (n : nat) : Prop :=
  forall i f, i < n -> left !! i = Some f \/ right !! i = Some f -> loads h f.

Definition contextError : string := "Could not get canvas context".

(** The composite of one pair, as the loop body requests it. *)
Definition compositeOf (h : Host) (g : TextOptions) (baby current : FileData)
  : Promise ProcessedImage :=
  createCombinedImage h baby current (formattedName (name baby))
    (Some (textOpts g (formattedName (name baby)))).

Definition pairAt (h : Host) (g : TextOptions) (sb sc : list FileData) (i : nat)
  : option (Promise ProcessedImage) :=
  match sb !! i, sc !! i with
  | Some baby, Some current => Some (compositeOf h g baby current)
  | _, _ => None
  end.

Definition progressUpTo (totalImages i n : nat) : list R :=
  (fun j => progressValue j totalImages) <$> seq i n.

Definition textFont (opts : TextOptions) : Canvas2D.Font :=
  Canvas2D.mkFont
    ((if bold opts then ["bold"] else []) ++ (if italic opts then ["italic"] else []))
    (size opts) (font opts).

(** A store with the baby photos in array 0 and the current ones in array 1. *)
Definition storeOf (babyPhotos currentPhotos : list FileData) : Store :=
  {[ 0 := babyPhotos; 1 := currentPhotos ]}.

(** The batch rejects with [e] after exactly [k] composites were completed
    and reported: pair [k] is the one that failed. *)
Definition failsAt (h : Host) (g : TextOptions) (babyPhotos currentPhotos : loc)
    (σ : Store) (k : nat) (e : string) : Prop :=
  (processImages h babyPhotos currentPhotos g σ).2 = Rejected e /\
  length (processImages h babyPhotos currentPhotos g σ).1.2 = k.

(** ** Geometry *)

Section Geometry.
Local Open Scope R_scope.

(** The matrix in force when the photo is drawn, read off the calls of
    [drawImage] in order. *)
Definition drawnMatrix (canvas : Canvas2D.Canvas) (x : R) (t : option Transform)
  : Canvas2D.Matrix :=
  let halfWidth := Canvas2D.width canvas / 2 in
  let m0 := Canvas2D.ctm (Canvas2D.state canvas) in
  let m1 := Canvas2D.multiply m0
              (Canvas2D.translation (x + halfWidth / 2) (Canvas2D.height canvas / 2)) in
  let m2 :=
    match t with
    | Some t =>
        Canvas2D.multiply
          (Canvas2D.multiply
             (Canvas2D.multiply m1 (Canvas2D.rotation (rotation t * PI / 180)))
             (Canvas2D.scaling (scale t) (scale t)))
          (Canvas2D.translation (pos_x (position t)) (pos_y (position t)))
    | None => m1
    end in
  Canvas2D.multiply m2
    (Canvas2D.translation (- halfWidth / 2) (- Canvas2D.height canvas / 2)).

Definition drawnState (canvas : Canvas2D.Canvas) (x : R) (t : option Transform)
  : Canvas2D.DrawState :=
  let st := Canvas2D.state canvas in
  Canvas2D.mkDrawState (drawnMatrix canvas x t) (Canvas2D.fillStyle st)
    (Canvas2D.strokeStyle st) (Canvas2D.lineWidth st) (Canvas2D.font st).

(** The destination rectangle [(x, y, width, height)] of the drawing call. *)
Definition drawnRect (canvas : Canvas2D.Canvas) (img : Canvas2D.HTMLImageElement)
    (x : R) : R * R * R * R :=
  let halfWidth := Canvas2D.width canvas / 2 in
  let imgRatio := Canvas2D.img_width img / Canvas2D.img_height img in
  let '(drawWidth, drawHeight) :=
    if Rgt_dec imgRatio (halfWidth / Canvas2D.height canvas)
    then (Canvas2D.height canvas * imgRatio, Canvas2D.height canvas)
    else (halfWidth, halfWidth / imgRatio) in
  (x + (halfWidth - drawWidth) / 2, (Canvas2D.height canvas - drawHeight) / 2,
   drawWidth, drawHeight).

Definition identityTransform : Transform := mkTransform 0 1 (mkPoint 0 0).

(** The per-half transform in the specification's words (section 4.3, steps
    2 to 4): translate to the centre of the half, rotate, scale, translate by
    the offset, undo the centring translation. *)
Definition halfTransformSpec (halfIndex : nat) (t : Transform) : Canvas2D.Matrix :=
  let cx := INR halfIndex * 960 + 480 in
  let cy := 540 in
  Canvas2D.multiply
    (Canvas2D.multiply
       (Canvas2D.multiply
          (Canvas2D.multiply (Canvas2D.translation cx cy)
             (Canvas2D.rotation (rotation t * PI / 180)))
          (Canvas2D.scaling (scale t) (scale t)))
       (Canvas2D.translation (pos_x (position t)) (pos_y (position t))))
    (Canvas2D.translation (- cx) (- cy)).

(** The drawing state of a text call. *)
Definition textOpState (op : Canvas2D.DrawOp) : option Canvas2D.DrawState :=
  match op with
  | Canvas2D.StrokeText st _ _ _ => Some st
  | Canvas2D.FillText st _ _ _ => Some st
  | _ => None
  end.

(** The placement table of the specification (section 4.4), margin 20. *)
Definition anchorSpec (p : Position) (canvasWidth canvasHeight textWidth sizePx : R)
  : R * R :=
  match p with
  | TopLeft => (20, sizePx + 20)
  | TopRight => (canvasWidth - textWidth - 20, sizePx + 20)
  | BottomLeft => (20, canvasHeight - 20)
  | BottomRight => (canvasWidth - textWidth - 20, canvasHeight - 20)
  end.

End Geometry.

(** ** A sample host and sample batches *)

(** Comparison of the characters' codes, one consistent collation. *)
Definition codeUnitCompare (a b : string) : Z :=
  match String.compare a b with
  | Lt => (-1)%Z
  | Eq => 0%Z
  | Gt => 1%Z
  end.

(** A host that has a context and decodes exactly the [blob:] sources. *)
Definition sampleHost : Host :=
  {| localeCompare := codeUnitCompare;
     getContext := true;
     loadImage := fun src =>
       if String.prefix "blob:" src
       then Some (Canvas2D.mkImage src 800 600)
       else None;
     leftErrorFirst := fun _ _ => true;
     measureText := fun f t => (INR (String.length t) * Canvas2D.fontSize f / 2)%R;
     toDataURL := fun _ => "data:image/jpeg;base64," |}.

Definition sampleOptions : TextOptions :=
  {| enabled := true; text := None; font := "Arial"; size := 48%R;
     bold := true; italic := false; color := None; position_ := BottomRight;
     stroke := true; strokeColor := None; strokeWidth := None |}.

Definition smithBaby : FileData := mkFileData "Smith_John_01.jpg" "blob:1" None.
Definition jonesBaby : FileData := mkFileData "Jones_Amy_01.jpg" "blob:2" None.
Definition smithNow : FileData := mkFileData "Smith_John_02.jpg" "blob:3" None.
Definition jonesNow : FileData := mkFileData "Jones_Amy_02.jpg" "blob:4" None.
Definition extraNow : FileData := mkFileData "Zeta_Zoe_02.jpg" "blob:5" None.
Definition brokenBaby : FileData := mkFileData "Smith_John_01.jpg" "broken" None.

(** Array 0 holds the baby photos, array 1 the current ones. *)
Definition sampleStore : Store :=
  {[ 0 := [smithBaby; jonesBaby]; 1 := [smithNow; extraNow; jonesNow] ]}.

(** The sample host without a canvas context. *)
Definition noContextHost : Host :=
  {| localeCompare := codeUnitCompare;
     getContext := false;
     loadImage := loadImage sampleHost;
     leftErrorFirst := fun _ _ => true;
     measureText := measureText sampleHost;
     toDataURL := toDataURL sampleHost |}.

Definition zeroScale : Transform := mkTransform 0 0 (mkPoint 0 0).
Definition zeroScaleBaby : FileData :=
  mkFileData "Smith_John_01.jpg" "blob:1" (Some zeroScale).

(* ------------------------------------------------------------------------- *)
(** * Properties *)

(** ** Splitting *)

Example split_adjacent : split underscore "a__b" = ["a"; ""; "b"].
Proof. reflexivity. Qed.

Example split_marker_twice : split marker "x_01y_01" = ["x"; "y"; ""].
Proof. reflexivity. Qed.

Example formattedName_one_token : formattedName "Madonna_01.jpg" = "undefined Madonna".
Proof. reflexivity. Qed.

Example formattedName_no_marker : formattedName "Van_Der_Berg.jpg" = "Der Van".
Proof. reflexivity. Qed.

Lemma splitFrom_nonempty sep s k : splitFrom sep s k <> [].
Proof.
  revert k; induction s as [|c s IH]; intros k; cbn [splitFrom]; [done|].
  destruct k as [|k]; [|apply IH].
  destruct (String.prefix sep (String c s)); [done|].
  destruct (splitFrom sep s 0); done.
Qed.

Lemma substring_0_0 s : String.substring 0 0 s = EmptyString.
Proof. destruct s; reflexivity. Qed.

Lemma substring_0_length_app p q :
  String.substring 0 (String.length p) (p +:+ q) = p.
Proof.
  induction p as [|c p IH]; simpl.
  - apply substring_0_0.
  - now rewrite IH.
Qed.

(** The head of [split sep s] is the text before the first occurrence of
    [sep], where "first occurrence" is the Standard Library's [index]. *)
Lemma split_head_index sep s n :
  String.index 0 sep s = Some n ->
  head (split sep s) = Some (String.substring 0 n s).
Proof.
  unfold split. revert n; induction s as [|c s IH]; intros n H.
  - destruct sep; simpl in H; [|discriminate H]. now inversion H.
  - cbn [String.index] in H. cbn [splitFrom].
    destruct (String.prefix sep (String c s)).
    + inversion H; subst. reflexivity.
    + destruct (String.index 0 sep s) as [m|] eqn:E; [|discriminate].
      inversion H; subst. specialize (IH m eq_refl).
      destruct (splitFrom sep s 0) as [|piece pieces]; [discriminate|].
      simpl in IH |- *. now inversion IH.
Qed.

(** Without any occurrence of [sep], nothing is cut off. *)
Lemma split_head_no_index sep s :
  String.index 0 sep s = None -> head (split sep s) = Some s.
Proof.
  unfold split. induction s as [|c s IH]; intros H.
  - reflexivity.
  - cbn [String.index] in H. cbn [splitFrom].
    destruct (String.prefix sep (String c s)); [discriminate|].
    destruct (String.index 0 sep s) as [m|] eqn:E; [discriminate|].
    specialize (IH eq_refl).
    destruct (splitFrom sep s 0) as [|piece pieces]; [discriminate|].
    simpl in IH |- *. now inversion IH.
Qed.

Lemma prefix_underscore c s :
  String.prefix underscore (String c s) = bool_decide (c = "_"%char).
Proof.
  unfold underscore.
  change (String.prefix "_" (String c s))
    with (if ascii_dec "_" c then String.prefix EmptyString s else false).
  destruct (ascii_dec "_" c) as [<-|Hne].
  - rewrite bool_decide_eq_true_2 by reflexivity. now destruct s.
  - rewrite bool_decide_eq_false_2; [reflexivity|congruence].
Qed.

(** A token without underscore followed by an underscore is cut off whole. *)
Lemma split_underscore_token a b :
  String.index 0 underscore a = None ->
  split underscore (a +:+ underscore +:+ b) = a :: split underscore b.
Proof.
  unfold split. induction a as [|c a IH]; intros H.
  - change (EmptyString +:+ underscore +:+ b) with (String "_"%char b).
    cbn [splitFrom]. rewrite prefix_underscore.
    now rewrite bool_decide_eq_true_2.
  - cbn [String.index] in H.
    change (String c a +:+ underscore +:+ b)
      with (String c (a +:+ underscore +:+ b)).
    cbn [splitFrom]. rewrite prefix_underscore in *.
    destruct (bool_decide (c = "_"%char)); [discriminate|].
    destruct (String.index 0 underscore a) eqn:E; [discriminate|].
    now rewrite IH.
Qed.

Lemma split_underscore_last a :
  String.index 0 underscore a = None -> split underscore a = [a].
Proof.
  unfold split. induction a as [|c a IH]; intros H.
  - reflexivity.
  - cbn [String.index] in H. cbn [splitFrom]. rewrite prefix_underscore in *.
    destruct (bool_decide (c = "_"%char)); [discriminate|].
    destruct (String.index 0 underscore a) eqn:E; [discriminate|].
    now rewrite IH.
Qed.

(** ** Sorting *)

Section SortFacts.
Context {A : Type} (cmp : A -> A -> Z).

Lemma insertSorted_length a (l : list A) :
  length (insertSorted cmp a l) = S (length l).
Proof.
  induction l as [|b l IH]; simpl; [reflexivity|].
  destruct (cmp a b <=? 0)%Z; simpl; congruence.
Qed.

Lemma sort_length (l : list A) : length (sort cmp l) = length l.
Proof.
  induction l as [|a l IH]; simpl; [reflexivity|].
  now rewrite insertSorted_length, IH.
Qed.

Lemma insertSorted_perm a (l : list A) : Permutation (a :: l) (insertSorted cmp a l).
Proof.
  induction l as [|b l IH]; simpl; [reflexivity|].
  destruct (cmp a b <=? 0)%Z; [reflexivity|].
  rewrite perm_swap. now apply perm_skip.
Qed.

Lemma sort_perm (l : list A) : Permutation l (sort cmp l).
Proof.
  induction l as [|a l IH]; simpl; [constructor|].
  rewrite <- insertSorted_perm. now apply perm_skip.
Qed.

Lemma insertSorted_sorted a (l : list A) :
  Consistent cmp ->
  Sorted (ascending cmp) l -> Sorted (ascending cmp) (insertSorted cmp a l).
Proof.
  intros [Htot _]. induction 1 as [|b l Hl IH Hb]; simpl.
  - repeat constructor.
  - destruct (Z.leb_spec (cmp a b) 0) as [Hab|Hab].
    + constructor; [now constructor|]. now constructor.
    + constructor; [exact IH|].
      assert (Hba : ascending cmp b a) by (destruct (Htot a b); [lia|assumption]).
      destruct Hb as [|c l' Hbc]; simpl; [now constructor|].
      destruct (cmp a c <=? 0)%Z; now constructor.
Qed.

Lemma sort_sorted (l : list A) :
  Consistent cmp -> Sorted (ascending cmp) (sort cmp l).
Proof.
  intros HC. induction l as [|a l IH]; simpl; [constructor|].
  now apply insertSorted_sorted.
Qed.

End SortFacts.

(** ** The store *)

Lemma readArray_insert_eq (l : loc) (v : list FileData) (σ : Store) :
  readArray l (<[l := v]> σ) = v.
Proof. unfold readArray. now rewrite lookup_insert_eq. Qed.

Lemma readArray_insert_ne (l l' : loc) (v : list FileData) (σ : Store) :
  l <> l' -> readArray l' (<[l := v]> σ) = readArray l' σ.
Proof. intros H. unfold readArray. now rewrite lookup_insert_ne. Qed.

Lemma fresh_not_allocated (σ : Store) : σ !! fresh (dom σ) = None.
Proof. apply not_elem_of_dom, is_fresh. Qed.

(** What [processImages] does, with the store operations resolved: the loop
    runs on sorted copies, and every array that existed before the call is
    left as it was.  The two arguments are references to existing arrays. *)
Lemma processImages_run h babyPhotos currentPhotos g (σ : Store) :
  is_Some (σ !! babyPhotos) -> is_Some (σ !! currentPhotos) ->
  let sortedBabyPhotos := sort (byName h) (readArray babyPhotos σ) in
  let sortedCurrentPhotos := sort (byName h) (readArray currentPhotos σ) in
  let totalImages :=
    Nat.min (length (readArray babyPhotos σ)) (length (readArray currentPhotos σ)) in
  let run :=
    processLoop h sortedBabyPhotos sortedCurrentPhotos g totalImages totalImages 0 [] in
  exists σ' : Store,
    processImages h babyPhotos currentPhotos g σ = (σ', run.1, run.2) /\
    forall l, is_Some (σ !! l) -> σ' !! l = σ !! l.
Proof.
  intros Hb Hc sb sc total run. unfold processImages, spread, sortInPlace.
  set (l1 := fresh (dom σ)).
  rewrite readArray_insert_eq.
  set (σ2 := <[l1 := sort (byName h) (readArray babyPhotos σ)]>
               (<[l1 := readArray babyPhotos σ]> σ)).
  set (l2 := fresh (dom σ2)).
  rewrite readArray_insert_eq.
  assert (H1 : σ !! l1 = None) by apply fresh_not_allocated.
  assert (H2 : σ2 !! l2 = None) by apply fresh_not_allocated.
  assert (Hne : l2 <> l1).
  { intros E. rewrite E in H2. unfold σ2 in H2.
    rewrite lookup_insert_eq in H2. discriminate. }
  assert (Hframe : forall l, is_Some (σ !! l) -> σ2 !! l = σ !! l).
  { intros l [v Hv]. unfold σ2.
    rewrite !lookup_insert_ne; [reflexivity| |]; intros ->; congruence. }
  assert (Hcur : readArray currentPhotos σ2 = readArray currentPhotos σ).
  { unfold readArray. now rewrite Hframe. }
  rewrite Hcur.
  set (σ4 := <[l2 := sort (byName h) (readArray currentPhotos σ)]>
               (<[l2 := readArray currentPhotos σ]> σ2)).
  assert (Hsb : readArray l1 σ4 = sb).
  { unfold σ4. rewrite !readArray_insert_ne by exact Hne.
    unfold σ2. now rewrite readArray_insert_eq. }
  assert (Hsc : readArray l2 σ4 = sc).
  { unfold σ4. now rewrite readArray_insert_eq. }
  rewrite Hsb, Hsc. fold total. fold run.
  exists σ4. split; [now destruct run|].
  intros l Hl. unfold σ4.
  assert (l2 <> l).
  { intros ->. rewrite (Hframe l Hl) in H2. destruct Hl; congruence. }
  rewrite !lookup_insert_ne by assumption. now apply Hframe.
Qed.

(** ** The loop *)

Section Loop.
Context (h : Host) (g : TextOptions) (sb sc : list FileData) (total : nat).

Lemma processLoop_step fuel i results r :
  pairAt h g sb sc i = Some (Resolved r) ->
  processLoop h sb sc g total (S fuel) i results =
    (progressValue i total :: (processLoop h sb sc g total fuel (S i) (results ++ [r])).1,
     (processLoop h sb sc g total fuel (S i) (results ++ [r])).2).
Proof.
  unfold pairAt, compositeOf. intros H. cbn [processLoop].
  destruct (sb !! i) as [b|]; [|discriminate].
  destruct (sc !! i) as [c|]; [|discriminate].
  inversion H as [H']. rewrite H'.
  now destruct (processLoop h sb sc g total fuel (S i) (results ++ [r])).
Qed.

Lemma processLoop_reject fuel i results e :
  pairAt h g sb sc i = Some (Rejected e) ->
  processLoop h sb sc g total (S fuel) i results = ([], Rejected e).
Proof.
  unfold pairAt, compositeOf. intros H. cbn [processLoop].
  destruct (sb !! i) as [b|]; [|discriminate].
  destruct (sc !! i) as [c|]; [|discriminate].
  inversion H as [H']. now rewrite H'.
Qed.

(** When every composite of the remaining iterations resolves, the loop
    reports once per composite and returns them all, in index order. *)
Lemma processLoop_ok fuel : forall i results,
  (forall j, i <= j < i + fuel -> exists r, pairAt h g sb sc j = Some (Resolved r)) ->
  exists rs,
    processLoop h sb sc g total fuel i results =
      (progressUpTo total i fuel, Resolved (results ++ rs)) /\
    length rs = fuel /\
    forall j, j < fuel ->
      exists r, rs !! j = Some r /\ pairAt h g sb sc (i + j) = Some (Resolved r).
Proof.
  induction fuel as [|fuel IH]; intros i results Hall.
  - exists []. rewrite app_nil_r.
    split; [reflexivity|]. split; [reflexivity|]. intros j Hj; lia.
  - destruct (Hall i ltac:(lia)) as [r Hr].
    destruct (IH (S i) (results ++ [r])) as (rs & Hrun & Hlen & Hrs).
    { intros j Hj. apply Hall. lia. }
    exists (r :: rs). rewrite (processLoop_step _ _ _ _ Hr), Hrun. simpl.
    rewrite <- app_assoc.
    split; [reflexivity|]. split; [simpl; now rewrite Hlen|].
    intros [|j] Hj.
    + exists r. now rewrite Nat.add_0_r.
    + destruct (Hrs j ltac:(lia)) as (r' & ? & ?). exists r'.
      now replace (i + S j) with (S i + j) by lia.
Qed.

(** When the composite of pair [k] is the first to reject, the loop has
    reported the [k - i] composites before it and rejects with that error. *)
Lemma processLoop_fail fuel : forall i results k e,
  i <= k < i + fuel ->
  (forall j, i <= j < k -> exists r, pairAt h g sb sc j = Some (Resolved r)) ->
  pairAt h g sb sc k = Some (Rejected e) ->
  processLoop h sb sc g total fuel i results =
    (progressUpTo total i (k - i), Rejected e).
Proof.
  induction fuel as [|fuel IH]; intros i results k e Hk Hbefore Hfail; [lia|].
  destruct (decide (i = k)) as [->|Hne].
  - rewrite (processLoop_reject _ _ _ _ Hfail). now rewrite Nat.sub_diag.
  - destruct (Hbefore i ltac:(lia)) as [r Hr].
    rewrite (processLoop_step _ _ _ _ Hr).
    rewrite (IH (S i) _ k e); [|lia| |assumption].
    + simpl. replace (k - i) with (S (k - S i)) by lia. reflexivity.
    + intros j Hj. apply Hbefore. lia.
Qed.

End Loop.

(** ** Drawing one photo *)

Ltac matrix_unfold :=
  unfold Canvas2D.multiply, Canvas2D.translation, Canvas2D.rotation,
    Canvas2D.scaling, Canvas2D.identity;
  cbn [Canvas2D.ma Canvas2D.mb Canvas2D.mc Canvas2D.md Canvas2D.me Canvas2D.mf].

Ltac matrix_eq := matrix_unfold; f_equal; ring.

Section MatrixFacts.
Local Open Scope R_scope.

Lemma multiply_identity_l m : Canvas2D.multiply Canvas2D.identity m = m.
Proof. destruct m. matrix_eq. Qed.

Lemma multiply_identity_r m : Canvas2D.multiply m Canvas2D.identity = m.
Proof. destruct m. matrix_eq. Qed.

Lemma multiply_translations a b c d :
  Canvas2D.multiply (Canvas2D.translation a b) (Canvas2D.translation c d) =
    Canvas2D.translation (a + c) (b + d).
Proof. matrix_eq. Qed.

Lemma rotation_0 : Canvas2D.rotation 0 = Canvas2D.identity.
Proof. unfold Canvas2D.rotation. rewrite cos_0, sin_0. matrix_eq. Qed.

Lemma scaling_1 : Canvas2D.scaling 1 1 = Canvas2D.identity.
Proof. reflexivity. Qed.

Lemma translation_0 : Canvas2D.translation 0 0 = Canvas2D.identity.
Proof. reflexivity. Qed.

Lemma translation_ext a b a' b' :
  a = a' -> b = b' -> Canvas2D.translation a b = Canvas2D.translation a' b'.
Proof. now intros -> ->. Qed.

Lemma apply_multiply m n p :
  Canvas2D.apply (Canvas2D.multiply m n) p = Canvas2D.apply m (Canvas2D.apply n p).
Proof.
  destruct m, n, p. unfold Canvas2D.apply, Canvas2D.multiply. cbn.
  f_equal; ring.
Qed.

Lemma apply_translation tx ty u v :
  Canvas2D.apply (Canvas2D.translation tx ty) (u, v) = (u + tx, v + ty).
Proof. unfold Canvas2D.apply. cbn. f_equal; ring. Qed.

Lemma apply_scaling sx sy u v :
  Canvas2D.apply (Canvas2D.scaling sx sy) (u, v) = (sx * u, sy * v).
Proof. unfold Canvas2D.apply. cbn. f_equal; ring. Qed.

Lemma apply_rotation a u v :
  Canvas2D.apply (Canvas2D.rotation a) (u, v) =
    (cos a * u - sin a * v, sin a * u + cos a * v).
Proof. unfold Canvas2D.apply. cbn. f_equal; ring. Qed.

End MatrixFacts.

Section DrawImage.
Local Open Scope R_scope.

(** [drawImage] issues exactly one drawing call, with [drawnMatrix] in force
    and [drawnRect] as destination, and leaves the drawing state as it found
    it. *)
Lemma drawImage_emits img x t canvas :
  drawImage img x t canvas =
    let '(dx, dy, dw, dh) := drawnRect canvas img x in
    Canvas2D.mkCanvas (Canvas2D.width canvas) (Canvas2D.height canvas)
      (Canvas2D.state canvas) (Canvas2D.stack canvas)
      (Canvas2D.ops canvas ++
         [Canvas2D.DrawImage (drawnState canvas x t) img dx dy dw dh]).
Proof.
  unfold drawImage, drawnRect.
  destruct (Rgt_dec _ _); destruct t as [t|]; reflexivity.
Qed.

End DrawImage.

Section CoverFit.
Local Open Scope R_scope.

Lemma drawnMatrix_identity canvas x t :
  Canvas2D.ctm (Canvas2D.state canvas) = Canvas2D.identity ->
  t = None \/ t = Some identityTransform ->
  drawnMatrix canvas x t =
    Canvas2D.translation (x + Canvas2D.width canvas / 2 / 2 + - (Canvas2D.width canvas / 2) / 2)
      (Canvas2D.height canvas / 2 + - Canvas2D.height canvas / 2).
Proof.
  intros Hm [->| ->]; unfold drawnMatrix; rewrite Hm, multiply_identity_l.
  - now rewrite multiply_translations.
  - cbn [identityTransform rotation scale position pos_x pos_y].
    replace (0 * PI / 180) with 0 by lra.
    rewrite rotation_0, scaling_1, translation_0, !multiply_identity_r.
    now rewrite multiply_translations.
Qed.

(** The destination rectangle.  A photo of native size [w] x [h] (ratio
    [r = w / h]) is drawn into its 960x1080 half by cover fit: when [r > 960/1080] the height is 1080 and
    the width [1080 * r], otherwise the width is 960 and the height
    [960 / r]; the rectangle is placed at
    [drawX = x + (960 - drawWidth) / 2], [drawY = (1080 - drawHeight) / 2];
    it keeps the photo's aspect ratio, has width 960 or height 1080 and
    covers the half.  Under the identity transform the matrix in force is the
    translation by [(x, 0)], which keeps these dimensions (and, for the left
    half, the place). *)
Theorem drawImage_cover_fit img x t canvas :
  Canvas2D.width canvas = 1920 -> Canvas2D.height canvas = 1080 ->
  0 < Canvas2D.img_width img -> 0 < Canvas2D.img_height img ->
  let r := Canvas2D.img_width img / Canvas2D.img_height img in
  exists st drawX drawY drawWidth drawHeight,
    Canvas2D.ops (drawImage img x t canvas) =
      Canvas2D.ops canvas ++ [Canvas2D.DrawImage st img drawX drawY drawWidth drawHeight] /\
    (r > 960 / 1080 -> drawHeight = 1080 /\ drawWidth = 1080 * r) /\
    (~ r > 960 / 1080 -> drawWidth = 960 /\ drawHeight = 960 / r) /\
    drawX = x + (960 - drawWidth) / 2 /\
    drawY = (1080 - drawHeight) / 2 /\
    drawWidth / drawHeight = r /\
    (drawWidth = 960 \/ drawHeight = 1080) /\
    960 <= drawWidth /\ 1080 <= drawHeight /\
    (Canvas2D.ctm (Canvas2D.state canvas) = Canvas2D.identity ->
     t = None \/ t = Some identityTransform ->
     Canvas2D.ctm st = Canvas2D.translation x 0).
Proof.
  intros Hw Hh Hiw Hih r.
  assert (Hr : 0 < r) by (apply Rdiv_lt_0_compat; assumption).
  assert (Hpure : Canvas2D.ctm (Canvas2D.state canvas) = Canvas2D.identity ->
                  t = None \/ t = Some identityTransform ->
                  Canvas2D.ctm (drawnState canvas x t) = Canvas2D.translation x 0).
  { intros Hm Ht. unfold drawnState; cbn [Canvas2D.ctm].
    rewrite (drawnMatrix_identity _ _ _ Hm Ht). apply translation_ext; lra. }
  exists (drawnState canvas x t).
  rewrite drawImage_emits. unfold drawnRect. fold r. rewrite Hw, Hh.
  replace (1920 / 2) with 960 by lra.
  destruct (Rgt_dec r (960 / 1080)) as [Hgt|Hle].
  - do 4 eexists. split; [reflexivity|].
    repeat match goal with |- _ /\ _ => split end;
      try exact Hpure; try tauto; lra.
  - assert (Hcover : 1080 <= 960 / r).
    { apply Rmult_le_reg_r with r; [assumption|].
      unfold Rdiv. rewrite Rmult_assoc, Rinv_l by lra. lra. }
    do 4 eexists. split; [reflexivity|].
    repeat match goal with |- _ /\ _ => split end;
      try exact Hpure; try tauto; try lra.
    field. lra.
Qed.

End CoverFit.

Section HalfTransform.
Local Open Scope R_scope.

(** The order of the calls, on the 1920x1080 canvas: the last translation is
    by [(-480, -540)] whatever the half. *)
Lemma drawnMatrix_order canvas x t :
  Canvas2D.width canvas = 1920 -> Canvas2D.height canvas = 1080 ->
  Canvas2D.ctm (Canvas2D.state canvas) = Canvas2D.identity ->
  drawnMatrix canvas x (Some t) =
    Canvas2D.multiply
      (Canvas2D.multiply
         (Canvas2D.multiply
            (Canvas2D.multiply (Canvas2D.translation (x + 480) 540)
               (Canvas2D.rotation (rotation t * PI / 180)))
            (Canvas2D.scaling (scale t) (scale t)))
         (Canvas2D.translation (pos_x (position t)) (pos_y (position t))))
      (Canvas2D.translation (- 480) (- 540)).
Proof.
  intros Hw Hh Hm. unfold drawnMatrix. rewrite Hw, Hh, Hm, multiply_identity_l.
  f_equal; [f_equal; f_equal; f_equal|]; apply translation_ext; lra.
Qed.

(** For the left half the last translation does undo the centring. *)
Lemma drawnMatrix_left_half canvas t :
  Canvas2D.width canvas = 1920 -> Canvas2D.height canvas = 1080 ->
  Canvas2D.ctm (Canvas2D.state canvas) = Canvas2D.identity ->
  drawnMatrix canvas 0 (Some t) = halfTransformSpec 0 t.
Proof.
  intros Hw Hh Hm. rewrite drawnMatrix_order by assumption.
  unfold halfTransformSpec. cbn [INR].
  f_equal; [f_equal; f_equal; f_equal|]; apply translation_ext; lra.
Qed.

Lemma blankCanvas_width : Canvas2D.width blankCanvas = 1920.
Proof. reflexivity. Qed.

Lemma blankCanvas_height : Canvas2D.height blankCanvas = 1080.
Proof. reflexivity. Qed.

Lemma blankCanvas_ctm : Canvas2D.ctm (Canvas2D.state blankCanvas) = Canvas2D.identity.
Proof. reflexivity. Qed.

(** C3, at the right half.  With the identity transform the matrix in force
    when the right photo is drawn is the translation by [(960, 0)]: the last
    step moves back by [(-480, -540)], not by the centre [(-1440, -540)] of
    the right half, so the centring is not undone and the matrix differs from
    the one the specification describes.  The photo's rectangle, placed at
    [960 + (960 - drawWidth) / 2], then starts at device abscissa
    [1920 + (960 - drawWidth) / 2]. *)
Theorem drawImage_right_half_not_recentred img :
  exists st dx dy dw dh,
    Canvas2D.ops (drawImage img 960 (Some identityTransform) blankCanvas) =
      Canvas2D.ops blankCanvas ++ [Canvas2D.DrawImage st img dx dy dw dh] /\
    Canvas2D.ctm st = Canvas2D.translation 960 0 /\
    halfTransformSpec 1 identityTransform = Canvas2D.identity /\
    Canvas2D.ctm st <> halfTransformSpec 1 identityTransform /\
    fst (Canvas2D.apply (Canvas2D.ctm st) (dx, dy)) = 1920 + (960 - dw) / 2.
Proof.
  assert (Hm : drawnMatrix blankCanvas 960 (Some identityTransform) =
               Canvas2D.translation 960 0).
  { rewrite drawnMatrix_order by reflexivity.
    cbn [identityTransform rotation scale position pos_x pos_y].
    replace (0 * PI / 180) with 0 by lra.
    rewrite rotation_0, scaling_1, translation_0, !multiply_identity_r.
    rewrite multiply_translations. apply translation_ext; lra. }
  assert (Hs : halfTransformSpec 1 identityTransform = Canvas2D.identity).
  { unfold halfTransformSpec.
    cbn [identityTransform rotation scale position pos_x pos_y INR].
    replace (0 * PI / 180) with 0 by lra.
    rewrite rotation_0, scaling_1, translation_0, !multiply_identity_r.
    rewrite multiply_translations, <- translation_0. apply translation_ext; lra. }
  exists (drawnState blankCanvas 960 (Some identityTransform)).
  rewrite drawImage_emits.
  destruct (drawnRect blankCanvas img 960) as [[[dx dy] dw] dh] eqn:Hrect.
  exists dx, dy, dw, dh. split; [reflexivity|].
  unfold drawnState; cbn [Canvas2D.ctm]. rewrite Hm, Hs.
  split; [reflexivity|]. split; [reflexivity|]. split.
  - intros E. apply (f_equal Canvas2D.me) in E.
    unfold Canvas2D.translation, Canvas2D.identity in E.
    cbn [Canvas2D.me] in E. lra.
  - rewrite apply_translation. cbn [fst].
    unfold drawnRect in Hrect. rewrite blankCanvas_width, blankCanvas_height in Hrect.
    destruct (Rgt_dec _ _); inversion Hrect; subst; lra.
Qed.

Lemma blankCanvas_right_matrix t :
  t = None \/ t = Some identityTransform ->
  drawnMatrix blankCanvas 960 t = Canvas2D.translation 960 0.
Proof.
  intros Ht. rewrite (drawnMatrix_identity _ _ _ blankCanvas_ctm Ht).
  rewrite blankCanvas_width, blankCanvas_height. apply translation_ext; lra.
Qed.

(** The middle of the destination rectangle is [(x + 480, 540)], whatever
    the photo. *)
Lemma drawnRect_middle canvas img x dx dy dw dh :
  Canvas2D.width canvas = 1920 -> Canvas2D.height canvas = 1080 ->
  drawnRect canvas img x = (dx, dy, dw, dh) ->
  dx = x + (960 - dw) / 2 /\ dy = (1080 - dh) / 2.
Proof.
  intros Hw Hh Hrect. unfold drawnRect in Hrect. rewrite Hw, Hh in Hrect.
  destruct (Rgt_dec _ _); inversion Hrect; subst; split; lra.
Qed.

(** C2, at the right half.  The rectangle handed to [ctx.drawImage] is placed
    by the formula [drawX = 960 + (960 - drawWidth) / 2],
    [drawY = (1080 - drawHeight) / 2], but it is not rendered centred in the
    right half: with no transform, and with the identity transform, the
    matrix in force is the translation by [(960, 0)], so the middle of the
    rendered rectangle is [(2400, 540)], beyond the 1920-pixel canvas, and
    not the centre [(1440, 540)] of the half. *)
Theorem right_photo_not_centred_in_its_half img t :
  t = None \/ t = Some identityTransform ->
  exists st drawX drawY drawWidth drawHeight,
    Canvas2D.ops (drawImage img 960 t blankCanvas) =
      Canvas2D.ops blankCanvas ++
        [Canvas2D.DrawImage st img drawX drawY drawWidth drawHeight] /\
    drawX = 960 + (960 - drawWidth) / 2 /\
    drawY = (1080 - drawHeight) / 2 /\
    Canvas2D.apply (Canvas2D.ctm st) (drawX + drawWidth / 2, drawY + drawHeight / 2) =
      (2400, 540) /\
    Canvas2D.apply (Canvas2D.ctm st) (drawX + drawWidth / 2, drawY + drawHeight / 2) <>
      (960 + 480, 540).
Proof.
  intros Ht.
  exists (drawnState blankCanvas 960 t).
  rewrite drawImage_emits.
  destruct (drawnRect blankCanvas img 960) as [[[dx dy] dw] dh] eqn:Hrect.
  destruct (drawnRect_middle _ _ _ _ _ _ _ blankCanvas_width blankCanvas_height Hrect)
    as [Hx Hy].
  exists dx, dy, dw, dh. split; [reflexivity|]. split; [exact Hx|]. split; [exact Hy|].
  unfold drawnState; cbn [Canvas2D.ctm].
  rewrite (blankCanvas_right_matrix t Ht), apply_translation.
  assert (Hmid : (dx + dw / 2 + 960, dy + dh / 2 + 0) = (2400, 540))
    by (f_equal; lra).
  rewrite Hmid. split; [reflexivity|].
  intros E. apply (f_equal fst) in E. cbn [fst] in E. lra.
Qed.

Lemma right_photo_not_centred_in_its_half_witness :
  let img := Canvas2D.mkImage "blob:3" 800 1000 in
  exists st drawX drawY drawWidth drawHeight,
    Canvas2D.ops (drawImage img 960 None blankCanvas) =
      Canvas2D.ops blankCanvas ++
        [Canvas2D.DrawImage st img drawX drawY drawWidth drawHeight] /\
    Canvas2D.apply (Canvas2D.ctm st) (drawX + drawWidth / 2, drawY + drawHeight / 2) =
      (2400, 540).
Proof.
  intros img.
  destruct (right_photo_not_centred_in_its_half img None)
    as (st & dx & dy & dw & dh & Hops & _ & _ & Hmid & _); [now left|].
  now exists st, dx, dy, dw, dh.
Defined.

(** C9.  With rotation and offset fixed, doubling the scale doubles the
    displacement from the centre [(x + 480, 540)] of the half of the image of
    every point the photo is drawn at; the destination rectangle itself does
    not depend on the scale. *)
Theorem doubling_scale_doubles_span img x canvas (r s : R) (offset : Point) :
  Canvas2D.width canvas = 1920 -> Canvas2D.height canvas = 1080 ->
  Canvas2D.ctm (Canvas2D.state canvas) = Canvas2D.identity ->
  exists st1 st2 dx dy dw dh,
    Canvas2D.ops (drawImage img x (Some (mkTransform r s offset)) canvas) =
      Canvas2D.ops canvas ++ [Canvas2D.DrawImage st1 img dx dy dw dh] /\
    Canvas2D.ops (drawImage img x (Some (mkTransform r (2 * s) offset)) canvas) =
      Canvas2D.ops canvas ++ [Canvas2D.DrawImage st2 img dx dy dw dh] /\
    forall p : R * R,
      fst (Canvas2D.apply (Canvas2D.ctm st2) p) - (x + 480) =
        2 * (fst (Canvas2D.apply (Canvas2D.ctm st1) p) - (x + 480)) /\
      snd (Canvas2D.apply (Canvas2D.ctm st2) p) - 540 =
        2 * (snd (Canvas2D.apply (Canvas2D.ctm st1) p) - 540).
Proof.
  intros Hw Hh Hm.
  exists (drawnState canvas x (Some (mkTransform r s offset))),
         (drawnState canvas x (Some (mkTransform r (2 * s) offset))).
  rewrite !drawImage_emits.
  destruct (drawnRect canvas img x) as [[[dx dy] dw] dh].
  exists dx, dy, dw, dh. split; [reflexivity|]. split; [reflexivity|].
  intros [px py]. unfold drawnState; cbn [Canvas2D.ctm].
  rewrite !drawnMatrix_order by assumption.
  cbn [rotation scale position]. rewrite !apply_multiply.
  rewrite (apply_translation (- 480)).
  rewrite (apply_translation (pos_x offset)), !apply_scaling, !apply_rotation.
  rewrite !apply_translation. cbn [fst snd]. split; ring.
Qed.

End HalfTransform.

(** ** The display name *)

Lemma append_empty_r (s : string) : s +:+ EmptyString = s.
Proof.
  induction s as [|c s IH]; [reflexivity|].
  change (String c s +:+ EmptyString) with (String c (s +:+ EmptyString)).
  now rewrite IH.
Qed.

Lemma split_underscore_second first more :
  String.index 0 underscore first = None ->
  more = EmptyString \/ (exists m, more = underscore +:+ m) ->
  exists tokens, split underscore (first +:+ more) = first :: tokens.
Proof.
  intros Hf [->|[m ->]].
  - exists []. rewrite append_empty_r. now apply split_underscore_last.
  - eexists. now apply split_underscore_token.
Qed.

(** C4.  The display name comes from the left photo's file name: the text
    before the first "_01" is split on "_", token 0 is the last name, token 1
    the first name, and the name reads "<first> <last>".  Here the file name
    is [last_first(_more)_01rest], the tokens [last] and [first] hold no
    underscore, and the first "_01" of the file name is the one written.  At
    "Smith_John_01.jpg" this gives "John Smith". *)
Theorem formattedName_first_last (last first more rest : string) :
  let prefix := last +:+ underscore +:+ first +:+ more in
  let fileName := prefix +:+ marker +:+ rest in
  String.index 0 underscore last = None ->
  String.index 0 underscore first = None ->
  more = EmptyString \/ (exists m, more = underscore +:+ m) ->
  String.index 0 marker fileName = Some (String.length prefix) ->
  head (split marker fileName) = Some prefix /\
  split underscore prefix !! 0%nat = Some last /\
  split underscore prefix !! 1%nat = Some first /\
  formattedName fileName = first +:+ " " +:+ last.
Proof.
  intros prefix fileName Hl Hf Hm Hidx.
  assert (Hhead : head (split marker fileName) = Some prefix).
  { rewrite (split_head_index _ _ _ Hidx). unfold fileName.
    now rewrite substring_0_length_app. }
  destruct (split_underscore_second first more Hf Hm) as [tokens Htok].
  assert (Hsplit : split underscore prefix = last :: first :: tokens).
  { unfold prefix. rewrite split_underscore_token by assumption. now rewrite Htok. }
  split; [exact Hhead|].
  rewrite Hsplit. split; [reflexivity|]. split; [reflexivity|].
  unfold formattedName. rewrite Hhead.
  change (default EmptyString (Some prefix)) with prefix. now rewrite Hsplit.
Qed.

Lemma formattedName_first_last_witness :
  formattedName "Smith_John_01.jpg" = "John Smith".
Proof.
  apply (formattedName_first_last "Smith" "John" "" ".jpg");
    [reflexivity | reflexivity | now left | reflexivity].
Defined.

(** ** One composite *)

Lemma createCombinedImage_resolves h l r n opts li ri :
  getContext h = true ->
  loadImage h (preview l) = Some li ->
  loadImage h (preview r) = Some ri ->
  createCombinedImage h l r n opts =
    Resolved
      {| dataUrl := toDataURL h (checkBothLoaded h li ri l r opts blankCanvas);
         pname := n;
         leftPhoto := preview l;
         rightPhoto := preview r;
         textOptions := opts;
         transformLeft := transform l;
         transformRight := transform r |}.
Proof.
  intros Hc Hl Hr. unfold createCombinedImage. now rewrite Hc, Hl, Hr.
Qed.

(** The three ways a composite is rejected. *)
Lemma createCombinedImage_rejects h l r n opts e :
  createCombinedImage h l r n opts = Rejected e ->
  (getContext h = false /\ e = contextError) \/
  (loadImage h (preview l) = None /\ e = leftError l) \/
  (loadImage h (preview r) = None /\ e = rightError r).
Proof.
  unfold createCombinedImage.
  destruct (getContext h); cbn [negb]; [|intros [= <-]; now left].
  destruct (loadImage h (preview l)) as [li|] eqn:El;
    destruct (loadImage h (preview r)) as [ri|] eqn:Er.
  - discriminate.
  - intros [= <-]. right; right. now split.
  - intros [= <-]. right; left. now split.
  - destruct (leftErrorFirst h (preview l) (preview r)); intros [= <-].
    + right; left. now split.
    + right; right. now split.
Qed.

Lemma createCombinedImage_decode_failure h l r n opts :
  getContext h = true ->
  loadImage h (preview l) = None \/ loadImage h (preview r) = None ->
  exists e,
    createCombinedImage h l r n opts = Rejected e /\
    ((loadImage h (preview l) = None /\ e = leftError l) \/
     (loadImage h (preview r) = None /\ e = rightError r)).
Proof.
  intros Hc Hfail. unfold createCombinedImage. rewrite Hc. cbn [negb].
  destruct (loadImage h (preview l)) as [li|] eqn:El;
    destruct (loadImage h (preview r)) as [ri|] eqn:Er.
  - destruct Hfail; discriminate.
  - eexists. split; [reflexivity|]. right. now split.
  - eexists. split; [reflexivity|]. left. now split.
  - destruct (leftErrorFirst h (preview l) (preview r));
      eexists; (split; [reflexivity|]); [left|right]; now split.
Qed.

Lemma pairAt_resolves h g (sb sc : list FileData) i lf rf :
  getContext h = true ->
  sb !! i = Some lf -> sc !! i = Some rf -> loads h lf -> loads h rf ->
  exists res,
    pairAt h g sb sc i = Some (Resolved res) /\
    pname res = formattedName (name lf) /\
    leftPhoto res = preview lf /\ rightPhoto res = preview rf /\
    transformLeft res = transform lf /\ transformRight res = transform rf.
Proof.
  intros Hc Hb Hcur [li Hl] [ri Hr]. unfold pairAt, compositeOf.
  rewrite Hb, Hcur, (createCombinedImage_resolves _ _ _ _ _ _ _ Hc Hl Hr).
  eexists. split; [reflexivity|]. repeat split.
Qed.

Lemma sort_loads h cmp (l : list FileData) i f :
  Forall (loads h) l -> sort cmp l !! i = Some f -> loads h f.
Proof.
  intros Hall Hi. apply list_elem_of_lookup_2, list_elem_of_In in Hi.
  rewrite List.Forall_forall in Hall. apply Hall.
  eapply Permutation_in; [symmetry; apply sort_perm | exact Hi].
Qed.

Lemma pairsLoad_sorted h cmp (L R : list FileData) n :
  Forall (loads h) L -> Forall (loads h) R ->
  pairsLoad h (sort cmp L) (sort cmp R) n.
Proof.
  intros HL HR i f _ [Hf|Hf].
  - exact (sort_loads h cmp L i f HL Hf).
  - exact (sort_loads h cmp R i f HR Hf).
Qed.

(** Every pair before [n] resolves when the context is there and its photos
    load. *)
Lemma pairs_resolve h g (left right : list FileData) n i :
  getContext h = true ->
  pairsLoad h left right n ->
  i < n -> i < length left -> i < length right ->
  exists lf rf res,
    left !! i = Some lf /\
    right !! i = Some rf /\
    pairAt h g left right i = Some (Resolved res) /\
    pname res = formattedName (name lf) /\
    leftPhoto res = preview lf /\ rightPhoto res = preview rf /\
    transformLeft res = transform lf /\ transformRight res = transform rf.
Proof.
  intros Hc Hload Hi HiL HiR.
  apply lookup_lt_is_Some_2 in HiL as [lf Hlf].
  apply lookup_lt_is_Some_2 in HiR as [rf Hrf].
  assert (Hll : loads h lf) by (apply (Hload i); auto).
  assert (Hlr : loads h rf) by (apply (Hload i); auto).
  destruct (pairAt_resolves h g _ _ i lf rf Hc Hlf Hrf Hll Hlr) as (res & Hres & Hfields).
  exists lf, rf, res. auto.
Qed.

(** ** Progress values *)

Section Progress.
Local Open Scope R_scope.

Lemma progressValue_lt (i j total : nat) :
  (i < j)%nat -> (0 < total)%nat ->
  progressValue i total < progressValue j total.
Proof.
  intros Hij Ht. unfold progressValue.
  assert (0 < INR total) by (apply lt_0_INR; lia).
  assert (INR (i + 1) < INR (j + 1)) by (apply lt_INR; lia).
  apply Rmult_lt_compat_r; [lra|].
  apply Rmult_lt_compat_r; [now apply Rinv_0_lt_compat | assumption].
Qed.

Lemma progressValue_range (i total : nat) :
  (i < total)%nat -> 0 <= progressValue i total <= 100.
Proof.
  intros Hi. unfold progressValue.
  assert (HT : 0 < INR total) by (apply lt_0_INR; lia).
  assert (Hle : INR (i + 1) <= INR total) by (apply le_INR; lia).
  assert (Hpos : 0 <= INR (i + 1)) by apply pos_INR.
  set (q := INR (i + 1) / INR total).
  assert (Hq : q * INR total = INR (i + 1)) by (unfold q; field; lra).
  assert (0 <= q) by (unfold q; apply Rmult_le_pos; [assumption|left; now apply Rinv_0_lt_compat]).
  assert (q <= 1) by nra.
  lra.
Qed.

Lemma progressValue_last (total : nat) :
  (0 < total)%nat -> progressValue (total - 1) total = 100.
Proof.
  intros Ht. unfold progressValue.
  replace (total - 1 + 1)%nat with total by lia.
  assert (0 < INR total) by (apply lt_0_INR; lia).
  field. lra.
Qed.

Lemma progressUpTo_length total i n : length (progressUpTo total i n) = n.
Proof. unfold progressUpTo. now rewrite length_fmap, length_seq. Qed.

Lemma progressUpTo_lookup total i n (j : nat) :
  (j < n)%nat -> progressUpTo total i n !! j = Some (progressValue (i + j) total).
Proof.
  intros Hj. unfold progressUpTo.
  now rewrite list_lookup_fmap, lookup_seq_lt.
Qed.

Lemma progressUpTo_lookup_inv total i n (j : nat) x :
  progressUpTo total i n !! j = Some x ->
  (j < n)%nat /\ x = progressValue (i + j) total.
Proof.
  intros H. assert (Hj : (j < n)%nat).
  { apply lookup_lt_Some in H. now rewrite progressUpTo_length in H. }
  rewrite progressUpTo_lookup in H by assumption. split; congruence.
Qed.

End Progress.

(** ** The batch *)

(** When the context is there and the photos of every pair load, the batch
    resolves: one progress report and one result per pair. *)
Lemma processImages_succeeds h babyPhotos currentPhotos g (σ : Store) :
  is_Some (σ !! babyPhotos) -> is_Some (σ !! currentPhotos) ->
  getContext h = true ->
  let left := sort (byName h) (readArray babyPhotos σ) in
  let right := sort (byName h) (readArray currentPhotos σ) in
  let total :=
    Nat.min (length (readArray babyPhotos σ)) (length (readArray currentPhotos σ)) in
  pairsLoad h left right total ->
  exists (σ' : Store) results,
    processImages h babyPhotos currentPhotos g σ =
      (σ', progressUpTo total 0 total, Resolved results) /\
    length results = total /\
    (forall i, i < total ->
       exists res, results !! i = Some res /\
                   pairAt h g left right i = Some (Resolved res)) /\
    (forall l, is_Some (σ !! l) -> σ' !! l = σ !! l).
Proof.
  intros Hb Hc Hctx left right total Hload.
  destruct (processImages_run h babyPhotos currentPhotos g σ Hb Hc)
    as (σ' & Hrun & Hframe).
  destruct (processLoop_ok h g left right total total 0 []) as (rs & Hloop & Hlen & Hrs).
  { intros j Hj.
    destruct (pairs_resolve h g left right total j Hctx Hload)
      as (lf & rf & res & _ & _ & Hp & _);
      [lia | unfold left; rewrite sort_length; unfold total; lia
           | unfold right; rewrite sort_length; unfold total; lia |].
    now exists res. }
  exists σ', rs. fold left right total in Hrun. rewrite Hloop in Hrun.
  split; [exact Hrun|]. split; [exact Hlen|]. split; [exact Hrs|exact Hframe].
Qed.

(** ** Sample data *)

Lemma codeUnitCompare_consistent : Consistent codeUnitCompare.
Proof.
  split.
  - intros a b. unfold codeUnitCompare.
    rewrite (String.compare_antisym a b).
    destruct (String.compare b a); simpl; lia.
  - intros a b c. unfold codeUnitCompare.
    destruct (String.compare a b) eqn:Eab; [| |lia];
      destruct (String.compare b c) eqn:Ebc; try lia; intros _ _.
    + apply String.compare_eq_iff in Eab, Ebc. subst.
      match goal with
      | |- context [String.compare ?x ?x] =>
          pose proof (proj2 (OrderedTypeEx.String_as_OT.cmp_eq x x) eq_refl) as E;
          unfold OrderedTypeEx.String_as_OT.cmp in E; rewrite E
      end. lia.
    + apply String.compare_eq_iff in Eab. subst. rewrite Ebc. lia.
    + apply String.compare_eq_iff in Ebc. subst. rewrite Eab. lia.
    + apply OrderedTypeEx.String_as_OT.cmp_lt in Eab, Ebc.
      pose proof (OrderedTypeEx.String_as_OT.lt_trans _ _ _ Eab Ebc) as Hac.
      apply OrderedTypeEx.String_as_OT.cmp_lt in Hac.
      unfold OrderedTypeEx.String_as_OT.cmp in Hac. rewrite Hac. lia.
Qed.

Lemma byName_consistent h :
  Consistent (localeCompare h) -> Consistent (byName h).
Proof.
  intros [Htot Htrans]. split; unfold byName.
  - intros a b. apply Htot.
  - intros a b c. apply Htrans.
Qed.

(** The comparator of lines 13-14 orders by [localeCompare] of the names. *)
Lemma byName_localeCompare h a b :
  byName h a b = localeCompare h (name a) (name b).
Proof. reflexivity. Qed.

Lemma sort_sorted_by_name h (l : list FileData) :
  Consistent (localeCompare h) ->
  Sorted (fun a b => (localeCompare h (name a) (name b) <= 0)%Z) (sort (byName h) l).
Proof.
  intros Hcons.
  pose proof (sort_sorted (byName h) l (byName_consistent h Hcons)) as Hs.
  induction Hs as [|a l' Hl IH Ha]; constructor; [exact IH|].
  destruct Ha as [|b l'' Hab]; constructor.
  unfold ascending in Hab. now rewrite byName_localeCompare in Hab.
Qed.

Lemma sampleStore_baby : sampleStore !! 0 = Some [smithBaby; jonesBaby].
Proof. reflexivity. Qed.

Lemma sampleStore_current : sampleStore !! 1 = Some [smithNow; extraNow; jonesNow].
Proof. reflexivity. Qed.

Lemma sampleStore_loads (arr : loc) : Forall (loads sampleHost) (readArray arr sampleStore).
Proof.
  unfold readArray.
  destruct arr as [|[|arr]]; [rewrite sampleStore_baby|rewrite sampleStore_current|].
  - repeat constructor; eexists; reflexivity.
  - repeat constructor; eexists; reflexivity.
  - replace (sampleStore !! S (S arr)) with (@None (list FileData)); [constructor|].
    symmetry. unfold sampleStore.
    rewrite lookup_insert_ne by lia. now rewrite lookup_singleton_ne by lia.
Qed.

(** C1.  When the context is there and the photos of the pairs load,
    [processImages] returns exactly [min(|left|, |right|)] results; each
    collection is sorted on its own by name: the sorted collection is a
    permutation of the input in which every photo's name is not after the
    next one's in the host's collation ([localeCompare] of the two names is
    [<= 0]); result [i] pairs element [i] of the sorted left collection with
    element [i] of the sorted right one; the elements beyond the shorter
    length yield nothing. *)
Theorem processImages_pairs_by_rank h babyPhotos currentPhotos g (σ : Store) :
  is_Some (σ !! babyPhotos) -> is_Some (σ !! currentPhotos) ->
  getContext h = true ->
  Consistent (localeCompare h) ->
  let left := sort (byName h) (readArray babyPhotos σ) in
  let right := sort (byName h) (readArray currentPhotos σ) in
  let total :=
    Nat.min (length (readArray babyPhotos σ)) (length (readArray currentPhotos σ)) in
  pairsLoad h left right total ->
  Permutation (readArray babyPhotos σ) left /\
  Sorted (fun a b => (localeCompare h (name a) (name b) <= 0)%Z) left /\
  Permutation (readArray currentPhotos σ) right /\
  Sorted (fun a b => (localeCompare h (name a) (name b) <= 0)%Z) right /\
  exists (σ' : Store) progress results,
    processImages h babyPhotos currentPhotos g σ = (σ', progress, Resolved results) /\
    length results = total /\
    forall i, i < total ->
      exists lf rf res,
        left !! i = Some lf /\ right !! i = Some rf /\ results !! i = Some res /\
        pname res = formattedName (name lf) /\
        leftPhoto res = preview lf /\ rightPhoto res = preview rf /\
        transformLeft res = transform lf /\ transformRight res = transform rf.
Proof.
  intros Hb Hc Hctx Hcons left right total Hload.
  split; [apply sort_perm|].
  split; [exact (sort_sorted_by_name h _ Hcons)|].
  split; [apply sort_perm|].
  split; [exact (sort_sorted_by_name h _ Hcons)|].
  destruct (processImages_succeeds h babyPhotos currentPhotos g σ Hb Hc Hctx Hload)
    as (σ' & results & Hrun & Hlen & Hres & _).
  exists σ', (progressUpTo total 0 total), results.
  split; [exact Hrun|]. split; [exact Hlen|].
  intros i Hi.
  destruct (Hres i Hi) as (res & Hri & Hpair).
  destruct (pairs_resolve h g left right total i Hctx Hload Hi)
    as (lf & rf & res' & Hlf & Hrf & Hpair' & Hfields);
    [unfold left; rewrite sort_length; unfold total in Hi; lia
    |unfold right; rewrite sort_length; unfold total in Hi; lia|].
  assert (E : Some (Resolved res) = Some (Resolved res')) by (now rewrite <- Hpair, <- Hpair').
  injection E as <-.
  exists lf, rf, res. auto.
Qed.

Lemma processImages_pairs_by_rank_witness :
  exists (σ' : Store) progress results,
    processImages sampleHost 0 1 sampleOptions sampleStore =
      (σ', progress, Resolved results) /\
    length results = 2.
Proof.
  destruct (processImages_pairs_by_rank sampleHost 0 1 sampleOptions sampleStore)
    as (_ & _ & _ & _ & σ' & progress & results & Hrun & Hlen & _).
  - rewrite sampleStore_baby. eexists; reflexivity.
  - rewrite sampleStore_current. eexists; reflexivity.
  - reflexivity.
  - apply codeUnitCompare_consistent.
  - apply pairsLoad_sorted; apply sampleStore_loads.
  - exists σ', progress, results. split; [exact Hrun|].
    rewrite Hlen. unfold readArray.
    now rewrite sampleStore_baby, sampleStore_current.
Defined.

(** C10.  [processImages] does not change the arrays it is given: after the
    call the two arrays (and every other array that existed) hold the same
    elements in the same order, since the sort works on copies. *)
Theorem processImages_leaves_inputs h babyPhotos currentPhotos g (σ : Store) :
  is_Some (σ !! babyPhotos) -> is_Some (σ !! currentPhotos) ->
  let σ' := (processImages h babyPhotos currentPhotos g σ).1.1 in
  σ' !! babyPhotos = σ !! babyPhotos /\
  σ' !! currentPhotos = σ !! currentPhotos /\
  forall l, is_Some (σ !! l) -> σ' !! l = σ !! l.
Proof.
  intros Hb Hc.
  destruct (processImages_run h babyPhotos currentPhotos g σ Hb Hc)
    as (σ' & Hrun & Hframe).
  rewrite Hrun. cbn [fst]. auto.
Qed.

Lemma processImages_leaves_inputs_witness :
  (processImages sampleHost 0 1 sampleOptions sampleStore).1.1 !! 0 =
    Some [smithBaby; jonesBaby].
Proof.
  destruct (processImages_leaves_inputs sampleHost 0 1 sampleOptions sampleStore)
    as (Hbaby & _ & _).
  - rewrite sampleStore_baby. eexists; reflexivity.
  - rewrite sampleStore_current. eexists; reflexivity.
  - now rewrite Hbaby, sampleStore_baby.
Defined.

(** Sorting the argument itself would have shown: the store tells the two
    apart. *)
Example sortInPlace_reorders :
  (sortInPlace (byName sampleHost) 0 sampleStore).2 !! 0 =
    Some [jonesBaby; smithBaby].
Proof. reflexivity. Qed.

(** C7.  For a non-empty batch whose composites all complete, [onProgress]
    is called exactly once per composite, call [i] with
    [(i + 1) / total * 100]; the reported values are strictly increasing, lie
    in [0, 100], and the last one is exactly 100. *)
Theorem progress_once_per_composite h babyPhotos currentPhotos g (σ : Store) :
  is_Some (σ !! babyPhotos) -> is_Some (σ !! currentPhotos) ->
  getContext h = true ->
  let left := sort (byName h) (readArray babyPhotos σ) in
  let right := sort (byName h) (readArray currentPhotos σ) in
  let total :=
    Nat.min (length (readArray babyPhotos σ)) (length (readArray currentPhotos σ)) in
  pairsLoad h left right total ->
  0 < total ->
  exists (σ' : Store) (progress : list R) results,
    processImages h babyPhotos currentPhotos g σ = (σ', progress, Resolved results) /\
    length progress = length results /\
    length results = total /\
    (forall i, i < total ->
       progress !! i = Some (INR (i + 1) / INR total * 100)%R) /\
    (forall i j x y, i < j ->
       progress !! i = Some x -> progress !! j = Some y -> (x < y)%R) /\
    (forall i x, progress !! i = Some x -> (0 <= x <= 100)%R) /\
    last progress = Some 100%R.
Proof.
  intros Hb Hc Hctx left right total Hload Hpos.
  destruct (processImages_succeeds h babyPhotos currentPhotos g σ Hb Hc Hctx Hload)
    as (σ' & results & Hrun & Hlen & _ & _).
  fold total in Hrun, Hlen.
  exists σ', (progressUpTo total 0 total), results.
  split; [exact Hrun|].
  split; [now rewrite progressUpTo_length, Hlen|].
  split; [exact Hlen|].
  split; [intros i Hi; now rewrite progressUpTo_lookup|].
  split.
  { intros i j x y Hij Hx Hy.
    apply progressUpTo_lookup_inv in Hx as [_ ->].
    apply progressUpTo_lookup_inv in Hy as [_ ->].
    apply progressValue_lt; [simpl; lia|exact Hpos]. }
  split.
  { intros i x Hx. apply progressUpTo_lookup_inv in Hx as [Hi ->].
    now apply progressValue_range. }
  rewrite last_lookup, progressUpTo_length, progressUpTo_lookup by lia.
  f_equal. replace (0 + Nat.pred total) with (total - 1) by lia.
  now apply progressValue_last.
Qed.

Lemma progress_once_per_composite_witness :
  exists (σ' : Store) (progress : list R) results,
    processImages sampleHost 0 1 sampleOptions sampleStore =
      (σ', progress, Resolved results) /\
    length progress = 2 /\ last progress = Some 100%R.
Proof.
  destruct (progress_once_per_composite sampleHost 0 1 sampleOptions sampleStore)
    as (σ' & progress & results & Hrun & Hlp & Hlen & _ & _ & _ & Hlast).
  - rewrite sampleStore_baby. eexists; reflexivity.
  - rewrite sampleStore_current. eexists; reflexivity.
  - reflexivity.
  - apply pairsLoad_sorted; apply sampleStore_loads.
  - unfold readArray. rewrite sampleStore_baby, sampleStore_current. simpl. lia.
  - exists σ', progress, results. split; [exact Hrun|]. split; [|exact Hlast].
    rewrite Hlp, Hlen. unfold readArray.
    now rewrite sampleStore_baby, sampleStore_current.
Defined.

(** ** The text overlay *)

Section Text.
Local Open Scope R_scope.

Lemma drawImage_width img x t canvas :
  Canvas2D.width (drawImage img x t canvas) = Canvas2D.width canvas.
Proof. rewrite drawImage_emits. now destruct (drawnRect canvas img x) as [[[? ?] ?] ?]. Qed.

Lemma drawImage_height img x t canvas :
  Canvas2D.height (drawImage img x t canvas) = Canvas2D.height canvas.
Proof. rewrite drawImage_emits. now destruct (drawnRect canvas img x) as [[[? ?] ?] ?]. Qed.

Lemma drawImage_state img x t canvas :
  Canvas2D.state (drawImage img x t canvas) = Canvas2D.state canvas.
Proof. rewrite drawImage_emits. now destruct (drawnRect canvas img x) as [[[? ?] ?] ?]. Qed.

Lemma drawImage_ops img x t canvas :
  exists st dx dy dw dh,
    Canvas2D.ops (drawImage img x t canvas) =
      Canvas2D.ops canvas ++ [Canvas2D.DrawImage st img dx dy dw dh] /\
    Canvas2D.ctm st = drawnMatrix canvas x t.
Proof.
  rewrite drawImage_emits. destruct (drawnRect canvas img x) as [[[dx dy] dw] dh].
  now exists (drawnState canvas x t), dx, dy, dw, dh.
Qed.

(** The text is stroked at most once and filled once, at the same anchor,
    the outline first. *)
Lemma drawText_ops h opts t canvas :
  let textWidth := measureText h (textFont opts) t in
  let anchor :=
    anchorSpec (position_ opts) (Canvas2D.width canvas) (Canvas2D.height canvas)
      textWidth (size opts) in
  exists st,
    Canvas2D.ops (drawText h opts t canvas) =
      Canvas2D.ops canvas ++
      (if stroke opts then [Canvas2D.StrokeText st t (fst anchor) (snd anchor)] else []) ++
      [Canvas2D.FillText st t (fst anchor) (snd anchor)] /\
    Canvas2D.font st = textFont opts /\
    Canvas2D.fillStyle st = orElse (color opts) "#000000".
Proof.
  intros textWidth anchor. unfold drawText.
  change (measureText h _ t) with textWidth.
  unfold anchor, anchorSpec.
  destruct (position_ opts); destruct (stroke opts);
    eexists; cbn;
    (split;
     [first [reflexivity | rewrite <- List.app_assoc; reflexivity]
     | split; reflexivity]).
Qed.

End Text.

Section Composite.
Local Open Scope R_scope.

Lemma checkBothLoaded_unfold h li ri lf rf topts canvas :
  checkBothLoaded h li ri lf rf topts canvas =
    let drawn :=
      drawImage ri (Canvas2D.width canvas / 2) (transform rf)
        (drawImage li 0 (transform lf) canvas) in
    match topts with
    | Some opts =>
        if enabled opts && truthy (text opts)
        then drawText h opts (default EmptyString (text opts)) drawn
        else drawn
    | None => drawn
    end.
Proof. unfold checkBothLoaded. now rewrite drawImage_width. Qed.

(** The two photos are drawn first, left then right, each once. *)
Lemma twoPhotos_ops li ri lf rf canvas :
  exists stL stR lx ly lw lh rx ry rw rh,
    Canvas2D.ops
      (drawImage ri (Canvas2D.width canvas / 2) (transform rf)
         (drawImage li 0 (transform lf) canvas)) =
      Canvas2D.ops canvas ++
        [Canvas2D.DrawImage stL li lx ly lw lh; Canvas2D.DrawImage stR ri rx ry rw rh].
Proof.
  destruct (drawImage_ops ri (Canvas2D.width canvas / 2) (transform rf)
              (drawImage li 0 (transform lf) canvas))
    as (stR & rx & ry & rw & rh & HR & _).
  destruct (drawImage_ops li 0 (transform lf) canvas)
    as (stL & lx & ly & lw & lh & HL & _).
  exists stL, stR, lx, ly, lw, lh, rx, ry, rw, rh.
  rewrite HR, HL. now rewrite <- List.app_assoc.
Qed.

Lemma truthy_nonempty (t : string) : t <> EmptyString -> truthy (Some t) = true.
Proof. destruct t; [congruence|reflexivity]. Qed.

(** C8.  For enabled text options with a resolved, non-empty text, the
    composite holds exactly one [fillText] call, in the chosen font, at the
    anchor of the four-position table with margin 20: top-left
    [(20, size + 20)], top-right [(canvasWidth - textWidth - 20, size + 20)],
    bottom-left [(20, canvasHeight - 20)], bottom-right
    [(canvasWidth - textWidth - 20, canvasHeight - 20)], where [textWidth] is
    the width the host measures for the text in that font. *)
Theorem text_anchor_table h li ri lf rf opts (t : string) canvas :
  enabled opts = true -> text opts = Some t -> t <> EmptyString ->
  List.filter Canvas2D.isFillText (Canvas2D.ops canvas) = [] ->
  let canvasWidth := Canvas2D.width canvas in
  let canvasHeight := Canvas2D.height canvas in
  exists st x y,
    List.filter Canvas2D.isFillText
      (Canvas2D.ops (checkBothLoaded h li ri lf rf (Some opts) canvas)) =
      [Canvas2D.FillText st t x y] /\
    Canvas2D.font st = textFont opts /\
    let textWidth := measureText h (Canvas2D.font st) t in
    (position_ opts = TopLeft -> x = 20 /\ y = size opts + 20) /\
    (position_ opts = TopRight ->
       x = canvasWidth - textWidth - 20 /\ y = size opts + 20) /\
    (position_ opts = BottomLeft -> x = 20 /\ y = canvasHeight - 20) /\
    (position_ opts = BottomRight ->
       x = canvasWidth - textWidth - 20 /\ y = canvasHeight - 20).
Proof.
  intros Hen Htext Hne Hclean canvasWidth canvasHeight.
  rewrite checkBothLoaded_unfold. cbv zeta.
  rewrite Hen, Htext, (truthy_nonempty t Hne). cbn [andb].
  change (default EmptyString (Some t)) with t.
  set (drawn := drawImage ri _ _ _).
  destruct (drawText_ops h opts t drawn) as (st & Hops & Hfont & _).
  destruct (twoPhotos_ops li ri lf rf canvas)
    as (stL & stR & lx & ly & lw & lh & rx & ry & rw & rh & Hphotos).
  fold drawn in Hphotos.
  assert (Hw : Canvas2D.width drawn = canvasWidth)
    by (unfold drawn; now rewrite !drawImage_width).
  assert (Hh : Canvas2D.height drawn = canvasHeight)
    by (unfold drawn; now rewrite !drawImage_height).
  rewrite Hw, Hh in Hops.
  eexists st, _, _. split; [|split; [exact Hfont|]].
  - rewrite Hops, Hphotos, !List.filter_app, Hclean.
    destruct (stroke opts); reflexivity.
  - rewrite Hfont. cbv zeta. unfold anchorSpec.
    repeat match goal with |- _ /\ _ => split end;
      intros E; rewrite E; split; reflexivity.
Qed.

Lemma text_anchor_table_witness :
  let img := Canvas2D.mkImage "blob:1" 800 600 in
  let opts := textOpts sampleOptions "John Smith" in
  exists st,
    List.filter Canvas2D.isFillText
      (Canvas2D.ops (checkBothLoaded sampleHost img img smithBaby smithNow
                       (Some opts) blankCanvas)) =
      [Canvas2D.FillText st "John Smith"
         (1920 - measureText sampleHost (Canvas2D.font st) "John Smith" - 20)
         (1080 - 20)].
Proof.
  intros img opts.
  destruct (text_anchor_table sampleHost img img smithBaby smithNow opts
              "John Smith" blankCanvas)
    as (st & x & y & Hops & _ & _ & _ & _ & Hbr); try reflexivity.
  - discriminate.
  - destruct (Hbr eq_refl) as [-> ->]. now exists st.
Defined.

End Composite.

(** ** Failures *)

(** When the composite of pair [k] is the first to reject, the batch rejects
    with its error after [k] progress reports. *)
Lemma processImages_fails_at h babyPhotos currentPhotos g (σ : Store) k e :
  is_Some (σ !! babyPhotos) -> is_Some (σ !! currentPhotos) ->
  let left := sort (byName h) (readArray babyPhotos σ) in
  let right := sort (byName h) (readArray currentPhotos σ) in
  let total :=
    Nat.min (length (readArray babyPhotos σ)) (length (readArray currentPhotos σ)) in
  k < total ->
  (forall i, i < k -> exists r, pairAt h g left right i = Some (Resolved r)) ->
  pairAt h g left right k = Some (Rejected e) ->
  exists σ' : Store,
    processImages h babyPhotos currentPhotos g σ =
      (σ', progressUpTo total 0 k, Rejected e).
Proof.
  intros Hb Hc left right total Hk Hbefore Hfail.
  destruct (processImages_run h babyPhotos currentPhotos g σ Hb Hc)
    as (σ' & Hrun & _).
  fold left right total in Hrun.
  rewrite (processLoop_fail h g left right total total 0 [] k e) in Hrun.
  - exists σ'. now rewrite Nat.sub_0_r in Hrun.
  - lia.
  - intros j Hj. apply Hbefore. lia.
  - exact Hfail.
Qed.

(** C5, as the code has it.  When the photos of the pairs before [k] load and
    a photo of pair [k] does not, the batch rejects with one error that names
    the failing side and the file name (it carries no pair index); nothing is
    returned for any index and nothing stands in for the failed composite;
    progress was reported for the [k] pairs before, with the values
    [(i + 1) / total * 100]. *)
Theorem decode_failure_rejects_batch h babyPhotos currentPhotos g (σ : Store) k lf rf :
  is_Some (σ !! babyPhotos) -> is_Some (σ !! currentPhotos) ->
  getContext h = true ->
  let left := sort (byName h) (readArray babyPhotos σ) in
  let right := sort (byName h) (readArray currentPhotos σ) in
  let total :=
    Nat.min (length (readArray babyPhotos σ)) (length (readArray currentPhotos σ)) in
  pairsLoad h left right k ->
  left !! k = Some lf -> right !! k = Some rf ->
  loadImage h (preview lf) = None \/ loadImage h (preview rf) = None ->
  exists (σ' : Store) (progress : list R) e,
    processImages h babyPhotos currentPhotos g σ = (σ', progress, Rejected e) /\
    ((loadImage h (preview lf) = None /\
      e = "Failed to load left image: " +:+ name lf) \/
     (loadImage h (preview rf) = None /\
      e = "Failed to load right image: " +:+ name rf)) /\
    length progress = k /\
    forall i, i < k -> progress !! i = Some (INR (i + 1) / INR total * 100)%R.
Proof.
  intros Hb Hc Hctx left right total Hbefore Hlf Hrf Hfail.
  assert (Hk : k < total).
  { apply lookup_lt_Some in Hlf, Hrf. unfold left, right in Hlf, Hrf.
    rewrite sort_length in Hlf, Hrf. unfold total. lia. }
  destruct (createCombinedImage_decode_failure h lf rf (formattedName (name lf))
              (Some (textOpts g (formattedName (name lf)))) Hctx Hfail)
    as (e & He & Hside).
  destruct (processImages_fails_at h babyPhotos currentPhotos g σ k e Hb Hc Hk)
    as (σ' & Hrun).
  - intros i Hi.
    assert (HiL : i < length left) by (unfold left; rewrite sort_length; unfold total in Hk; lia).
    assert (HiR : i < length right) by (unfold right; rewrite sort_length; unfold total in Hk; lia).
    apply lookup_lt_is_Some_2 in HiL as [bi Hbi].
    apply lookup_lt_is_Some_2 in HiR as [ci Hci].
    destruct (pairAt_resolves h g left right i bi ci Hctx Hbi Hci) as (res & Hres & _).
    + apply (Hbefore i); auto.
    + apply (Hbefore i); auto.
    + now exists res.
  - fold left right. unfold pairAt, compositeOf. now rewrite Hlf, Hrf, He.
  - exists σ', (progressUpTo total 0 k), e.
    split; [exact Hrun|]. split; [exact Hside|].
    split; [apply progressUpTo_length|].
    intros i Hi. now rewrite progressUpTo_lookup.
Qed.

Lemma storeOf_baby L R : storeOf L R !! 0 = Some L.
Proof. reflexivity. Qed.

Lemma storeOf_current L R : storeOf L R !! 1 = Some R.
Proof. reflexivity. Qed.

Lemma decode_failure_rejects_batch_witness :
  exists (σ' : Store) (progress : list R),
    processImages sampleHost 0 1 sampleOptions
      (storeOf [jonesBaby; brokenBaby] [smithNow; jonesNow]) =
      (σ', progress, Rejected "Failed to load left image: Smith_John_01.jpg") /\
    length progress = 1.
Proof.
  destruct (decode_failure_rejects_batch sampleHost 0 1 sampleOptions
              (storeOf [jonesBaby; brokenBaby] [smithNow; jonesNow]) 1
              brokenBaby smithNow)
    as (σ' & progress & e & Hrun & Hside & Hlen & _).
  - rewrite storeOf_baby. eexists; reflexivity.
  - rewrite storeOf_current. eexists; reflexivity.
  - reflexivity.
  - intros [|i] f Hi [Hf|Hf]; [| |lia|lia];
      vm_compute in Hf; injection Hf as <-; eexists; reflexivity.
  - reflexivity.
  - reflexivity.
  - now left.
  - destruct Hside as [[_ ->]|[Hr _]]; [|discriminate Hr].
    now exists σ', progress.
Defined.

(** C5, as stated, fails: the error does not tell the pair index.  The same
    error comes out of a batch that fails at pair 0 and of one that fails at
    pair 1, so no function of the error recovers the index. *)
Lemma decode_error_names_no_index :
  ~ exists indexOf : string -> nat,
      forall (σ : Store) k e, failsAt sampleHost sampleOptions 0 1 σ k e -> indexOf e = k.
Proof.
  intros [indexOf Hindex].
  assert (H0 : failsAt sampleHost sampleOptions 0 1
                 (storeOf [brokenBaby] [smithNow]) 0
                 "Failed to load left image: Smith_John_01.jpg")
    by (split; vm_compute; reflexivity).
  assert (H1 : failsAt sampleHost sampleOptions 0 1
                 (storeOf [jonesBaby; brokenBaby] [smithNow; jonesNow]) 1
                 "Failed to load left image: Smith_John_01.jpg")
    by (split; vm_compute; reflexivity).
  apply Hindex in H0, H1. congruence.
Qed.

(** ** Configuration *)

Lemma formattedName_truthy fileName : truthy (Some (formattedName fileName)) = true.
Proof.
  unfold formattedName.
  destruct (template (split underscore _ !! 1)); reflexivity.
Qed.

(** The text handed to the compositor is never missing or empty. *)
Lemma textOpts_truthy g fileName :
  truthy (text (textOpts g (formattedName fileName))) = true.
Proof.
  unfold textOpts. cbn [text].
  destruct (enabled g); [|apply formattedName_truthy].
  pose proof (formattedName_truthy fileName) as Hn.
  destruct (text g) as [[|c t]|]; cbn [orElse]; try exact Hn. reflexivity.
Qed.

(** C6, as stated, fails: a pair whose left transform has scale 0 is
    composited and returned like any other; no error is raised. *)
Lemma nonpositive_scale_raises_no_error :
  transform zeroScaleBaby = Some zeroScale /\ (scale zeroScale <= 0)%R /\
  exists (σ' : Store) progress res,
    processImages sampleHost 0 1 sampleOptions (storeOf [zeroScaleBaby] [smithNow]) =
      (σ', progress, Resolved [res]) /\
    transformLeft res = Some zeroScale.
Proof.
  split; [reflexivity|]. split; [simpl; lra|].
  eexists _, _, _. split; [vm_compute; reflexivity|reflexivity].
Qed.

(** C6, as the code has it.  A transform with scale [<= 0] raises no error:
    when the context is there and both photos load, the composite of the pair
    resolves, both photos having been drawn (left first, each once) with the
    matrix their transform gives; and the text the loop hands over is never
    missing or empty, so text options cannot lack a text either. *)
Theorem nonpositive_scale_is_composited h g l r li ri t :
  transform l = Some t \/ transform r = Some t -> (scale t <= 0)%R ->
  getContext h = true ->
  loadImage h (preview l) = Some li -> loadImage h (preview r) = Some ri ->
  let opts := textOpts g (formattedName (name l)) in
  let canvas := checkBothLoaded h li ri l r (Some opts) blankCanvas in
  exists res stL stR lx ly lw lh rx ry rw rh,
    createCombinedImage h l r (formattedName (name l)) (Some opts) = Resolved res /\
    dataUrl res = toDataURL h canvas /\
    List.filter Canvas2D.isDrawImage (Canvas2D.ops canvas) =
      [Canvas2D.DrawImage stL li lx ly lw lh; Canvas2D.DrawImage stR ri rx ry rw rh] /\
    Canvas2D.ctm stL = drawnMatrix blankCanvas 0 (transform l) /\
    Canvas2D.ctm stR = drawnMatrix blankCanvas (1920 / 2) (transform r) /\
    truthy (text opts) = true.
Proof.
  intros _ _ Hctx Hl Hr opts canvas.
  destruct (drawImage_ops li 0 (transform l) blankCanvas)
    as (stL & lx & ly & lw & lh & HL & HmL).
  set (c1 := drawImage li 0 (transform l) blankCanvas) in *.
  destruct (drawImage_ops ri (Canvas2D.width blankCanvas / 2) (transform r) c1)
    as (stR & rx & ry & rw & rh & HR & HmR).
  set (drawn := drawImage ri _ _ c1) in *.
  eexists _, stL, stR, lx, ly, lw, lh, rx, ry, rw, rh.
  split; [apply (createCombinedImage_resolves _ _ _ _ _ _ _ Hctx Hl Hr)|].
  split; [reflexivity|].
  assert (Htruthy : truthy (text opts) = true) by apply textOpts_truthy.
  split; [|split; [exact HmL|split; [|exact Htruthy]]].
  - unfold canvas. rewrite checkBothLoaded_unfold. cbv zeta. fold c1 drawn.
    rewrite Htruthy.
    assert (Hdrawn : List.filter Canvas2D.isDrawImage (Canvas2D.ops drawn) =
              [Canvas2D.DrawImage stL li lx ly lw lh;
               Canvas2D.DrawImage stR ri rx ry rw rh])
      by (rewrite HR, HL; reflexivity).
    destruct (enabled opts); cbn [andb]; [|exact Hdrawn].
    destruct (drawText_ops h opts (default EmptyString (text opts)) drawn)
      as (st & Hops & _).
    rewrite Hops, !List.filter_app, Hdrawn. now destruct (stroke opts).
  - rewrite HmR. unfold drawnMatrix, c1.
    now rewrite drawImage_width, drawImage_height, drawImage_state.
Qed.

Lemma nonpositive_scale_is_composited_witness :
  exists res,
    createCombinedImage sampleHost zeroScaleBaby smithNow "John Smith"
      (Some (textOpts sampleOptions "John Smith")) = Resolved res.
Proof.
  destruct (nonpositive_scale_is_composited sampleHost sampleOptions
              zeroScaleBaby smithNow
              (Canvas2D.mkImage "blob:1" 800 600) (Canvas2D.mkImage "blob:3" 800 600)
              zeroScale)
    as (res & _ & _ & _ & _ & _ & _ & _ & _ & _ & _ & Hres & _).
  - now left.
  - simpl. lra.
  - reflexivity.
  - reflexivity.
  - reflexivity.
  - now exists res.
Defined.

(** ** Sample runs of the geometry *)

Lemma drawImage_cover_fit_witness :
  let img := Canvas2D.mkImage "blob:1" 800 600 in
  exists st drawX drawY drawWidth,
    Canvas2D.ops (drawImage img 0 None blankCanvas) =
      Canvas2D.ops blankCanvas ++ [Canvas2D.DrawImage st img drawX drawY drawWidth 1080%R] /\
    drawWidth = (1080 * (800 / 600))%R.
Proof.
  intros img.
  destruct (drawImage_cover_fit img 0%R None blankCanvas)
    as (st & dx & dy & dw & dh & Hops & Hwide & _);
    [reflexivity | reflexivity | simpl; lra | simpl; lra |].
  destruct Hwide as [-> ->]; [simpl; lra|].
  now exists st, dx, dy, (1080 * (800 / 600))%R.
Defined.

Lemma doubling_scale_doubles_span_witness :
  let img := Canvas2D.mkImage "blob:1" 800 600 in
  exists st1 st2 dx dy dw dh,
    Canvas2D.ops (drawImage img 960%R (Some (mkTransform 30 1 (mkPoint 10 20))) blankCanvas) =
      Canvas2D.ops blankCanvas ++ [Canvas2D.DrawImage st1 img dx dy dw dh] /\
    Canvas2D.ops (drawImage img 960%R (Some (mkTransform 30 (2 * 1) (mkPoint 10 20))) blankCanvas) =
      Canvas2D.ops blankCanvas ++ [Canvas2D.DrawImage st2 img dx dy dw dh] /\
    (fst (Canvas2D.apply (Canvas2D.ctm st2) (0, 0)) - (960 + 480) =
       2 * (fst (Canvas2D.apply (Canvas2D.ctm st1) (0, 0)) - (960 + 480)))%R.
Proof.
  intros img.
  destruct (doubling_scale_doubles_span img 960%R blankCanvas 30%R 1%R (mkPoint 10 20))
    as (st1 & st2 & dx & dy & dw & dh & H1 & H2 & Hspan);
    [reflexivity | reflexivity | reflexivity |].
  exists st1, st2, dx, dy, dw, dh.
  split; [exact H1|]. split; [exact H2|]. apply (Hspan (0%R, 0%R)).
Defined.

(* ------------------------------------------------------------------------- *)
(** * Further properties of the batch *)

(** Every run of the loop: some [k] composites complete and are reported;
    either all of them did, or the composite of pair [i + k] rejected. *)
Lemma processLoop_shape h g (sb sc : list FileData) total fuel :
  forall i results,
    i + fuel <= length sb -> i + fuel <= length sc ->
    exists k,
      k <= fuel /\
      (processLoop h sb sc g total fuel i results).1 = progressUpTo total i k /\
      ((exists rs,
          (processLoop h sb sc g total fuel i results).2 = Resolved (results ++ rs) /\
          length rs = fuel /\ k = fuel) \/
       (exists e,
          (processLoop h sb sc g total fuel i results).2 = Rejected e /\
          k < fuel /\ pairAt h g sb sc (i + k) = Some (Rejected e))).
Proof.
  induction fuel as [|fuel IH]; intros i results Hb Hc.
  - exists 0. split; [lia|]. split; [reflexivity|]. left.
    exists []. now rewrite app_nil_r.
  - assert (HiL : i < length sb) by lia. assert (HiR : i < length sc) by lia.
    apply lookup_lt_is_Some_2 in HiL as [b Hlb].
    apply lookup_lt_is_Some_2 in HiR as [c Hlc].
    destruct (compositeOf h g b c) as [r|e] eqn:Hcomp.
    + assert (Hp : pairAt h g sb sc i = Some (Resolved r))
        by (unfold pairAt; now rewrite Hlb, Hlc, Hcomp).
      rewrite (processLoop_step h g sb sc total fuel i results r Hp). cbn [fst snd].
      destruct (IH (S i) (results ++ [r])) as (k & Hk & Hprog & Hout); [lia|lia|].
      exists (S k). split; [lia|]. split; [cbn; now rewrite Hprog|].
      destruct Hout as [(rs & Hres & Hlen & ->)|(e & Hrej & Hlt & Hpair)].
      * left. exists (r :: rs). rewrite Hres, <- List.app_assoc.
        split; [reflexivity|]. split; [simpl; now rewrite Hlen|reflexivity].
      * right. exists e. split; [exact Hrej|]. split; [lia|].
        now replace (i + S k) with (S i + k) by lia.
    + assert (Hp : pairAt h g sb sc i = Some (Rejected e))
        by (unfold pairAt; now rewrite Hlb, Hlc, Hcomp).
      rewrite (processLoop_reject h g sb sc total fuel i results e Hp).
      exists 0. split; [lia|]. split; [reflexivity|]. right.
      exists e. split; [reflexivity|]. split; [lia|]. now rewrite Nat.add_0_r.
Qed.

Lemma processImages_shape h babyPhotos currentPhotos g (σ : Store) :
  is_Some (σ !! babyPhotos) -> is_Some (σ !! currentPhotos) ->
  let left := sort (byName h) (readArray babyPhotos σ) in
  let right := sort (byName h) (readArray currentPhotos σ) in
  let total :=
    Nat.min (length (readArray babyPhotos σ)) (length (readArray currentPhotos σ)) in
  exists (σ' : Store) k,
    k <= total /\
    ((exists rs,
        processImages h babyPhotos currentPhotos g σ =
          (σ', progressUpTo total 0 k, Resolved rs) /\
        length rs = total /\ k = total) \/
     (exists e,
        processImages h babyPhotos currentPhotos g σ =
          (σ', progressUpTo total 0 k, Rejected e) /\
        k < total /\ pairAt h g left right k = Some (Rejected e))).
Proof.
  intros Hb Hc left right total.
  destruct (processImages_run h babyPhotos currentPhotos g σ Hb Hc)
    as (σ' & Hrun & _).
  fold left right total in Hrun.
  destruct (processLoop_shape h g left right total total 0 [])
    as (k & Hk & Hprog & Hout).
  { unfold left. rewrite sort_length. unfold total. lia. }
  { unfold right. rewrite sort_length. unfold total. lia. }
  exists σ', k. split; [exact Hk|]. rewrite Hprog in Hrun.
  destruct Hout as [(rs & Hres & Hlen & Hkt)|(e & Hrej & Hlt & Hpair)].
  - left. exists rs. rewrite Hres in Hrun. now split.
  - right. exists e. rewrite Hrej in Hrun. now split.
Qed.

(** X1.  An empty batch: when either collection is empty, [processImages]
    resolves with no result and never calls [onProgress]; no canvas is
    created and no photo is loaded, so this holds whatever the host. *)
Theorem processImages_empty_batch h babyPhotos currentPhotos g (σ : Store) :
  is_Some (σ !! babyPhotos) -> is_Some (σ !! currentPhotos) ->
  readArray babyPhotos σ = [] \/ readArray currentPhotos σ = [] ->
  exists σ' : Store,
    processImages h babyPhotos currentPhotos g σ = (σ', [], Resolved []).
Proof.
  intros Hb Hc Hempty.
  destruct (processImages_run h babyPhotos currentPhotos g σ Hb Hc)
    as (σ' & Hrun & _).
  exists σ'. rewrite Hrun.
  replace (Nat.min _ _) with 0; [reflexivity|].
  destruct Hempty as [-> | ->]; simpl; lia.
Qed.

Lemma processImages_empty_batch_witness :
  exists σ' : Store,
    processImages noContextHost 0 1 sampleOptions (storeOf [] [brokenBaby]) =
      (σ', [], Resolved []).
Proof.
  apply (processImages_empty_batch noContextHost 0 1 sampleOptions
           (storeOf [] [brokenBaby])).
  - rewrite storeOf_baby. eexists; reflexivity.
  - rewrite storeOf_current. eexists; reflexivity.
  - left. reflexivity.
Defined.

(** X2.  Without a canvas context a non-empty batch rejects at once with
    "Could not get canvas context": nothing was reported, and whether the
    photos would load plays no role. *)
Theorem processImages_without_context h babyPhotos currentPhotos g (σ : Store) :
  is_Some (σ !! babyPhotos) -> is_Some (σ !! currentPhotos) ->
  getContext h = false ->
  readArray babyPhotos σ <> [] -> readArray currentPhotos σ <> [] ->
  exists σ' : Store,
    processImages h babyPhotos currentPhotos g σ =
      (σ', [], Rejected "Could not get canvas context").
Proof.
  intros Hb Hc Hctx HneL HneR.
  destruct (processImages_run h babyPhotos currentPhotos g σ Hb Hc)
    as (σ' & Hrun & _).
  exists σ'. rewrite Hrun.
  set (sb := sort (byName h) (readArray babyPhotos σ)).
  set (sc := sort (byName h) (readArray currentPhotos σ)).
  assert (HiL : 0 < length sb).
  { unfold sb. rewrite sort_length. destruct (readArray babyPhotos σ); [congruence|simpl; lia]. }
  assert (HiR : 0 < length sc).
  { unfold sc. rewrite sort_length. destruct (readArray currentPhotos σ); [congruence|simpl; lia]. }
  assert (Htotal : exists n,
            Nat.min (length (readArray babyPhotos σ)) (length (readArray currentPhotos σ)) = S n).
  { unfold sb, sc in HiL, HiR. rewrite sort_length in HiL, HiR.
    exists (Nat.pred (Nat.min (length (readArray babyPhotos σ))
                              (length (readArray currentPhotos σ)))). lia. }
  destruct Htotal as [n ->].
  apply lookup_lt_is_Some_2 in HiL as [b0 Hb0].
  apply lookup_lt_is_Some_2 in HiR as [c0 Hc0].
  assert (Hp : pairAt h g sb sc 0 = Some (Rejected contextError)).
  { unfold pairAt, compositeOf, createCombinedImage. now rewrite Hb0, Hc0, Hctx. }
  now rewrite (processLoop_reject h g sb sc _ _ 0 [] _ Hp).
Qed.

Lemma processImages_without_context_witness :
  exists σ' : Store,
    processImages noContextHost 0 1 sampleOptions sampleStore =
      (σ', [], Rejected "Could not get canvas context").
Proof.
  apply (processImages_without_context noContextHost 0 1 sampleOptions sampleStore).
  - rewrite sampleStore_baby. eexists; reflexivity.
  - rewrite sampleStore_current. eexists; reflexivity.
  - reflexivity.
  - unfold readArray. rewrite sampleStore_baby. discriminate.
  - unfold readArray. rewrite sampleStore_current. discriminate.
Defined.

Lemma progressUpTo_below_100 total k :
  k < total -> Forall (fun x => (x < 100)%R) (progressUpTo total 0 k).
Proof.
  intros Hk. apply Forall_lookup_2. intros j x Hx.
  apply progressUpTo_lookup_inv in Hx as [Hj ->].
  rewrite <- (progressValue_last total) by lia.
  apply progressValue_lt; simpl; lia.
Qed.

(** X3.  Whatever happens, [onProgress] is called [k] times for some
    [k <= total], call [i] with [(i + 1) / total * 100]: all [total] calls
    exactly when the batch resolves (with [total] results), fewer when it
    rejects, and then every reported value is below 100. *)
Theorem progress_is_a_prefix h babyPhotos currentPhotos g (σ : Store) :
  is_Some (σ !! babyPhotos) -> is_Some (σ !! currentPhotos) ->
  let total :=
    Nat.min (length (readArray babyPhotos σ)) (length (readArray currentPhotos σ)) in
  exists (σ' : Store) (progress : list R) outcome,
    processImages h babyPhotos currentPhotos g σ = (σ', progress, outcome) /\
    length progress <= total /\
    (forall i, i < length progress ->
       progress !! i = Some (INR (i + 1) / INR total * 100)%R) /\
    (forall rs, outcome = Resolved rs ->
       length progress = total /\ length rs = total) /\
    (forall e, outcome = Rejected e ->
       length progress < total /\ Forall (fun x => (x < 100)%R) progress).
Proof.
  intros Hb Hc total.
  destruct (processImages_shape h babyPhotos currentPhotos g σ Hb Hc)
    as (σ' & k & Hk & [(rs & Hrun & Hlen & Hkt)|(e & Hrun & Hlt & _)]).
  - exists σ', (progressUpTo total 0 k), (Resolved rs).
    rewrite progressUpTo_length.
    split; [exact Hrun|]. split; [exact Hk|].
    split; [intros i Hi; now rewrite progressUpTo_lookup|].
    split; [intros rs' [= <-]; now split|discriminate].
  - exists σ', (progressUpTo total 0 k), (Rejected e).
    rewrite progressUpTo_length.
    split; [exact Hrun|]. split; [exact Hk|].
    split; [intros i Hi; now rewrite progressUpTo_lookup|].
    split; [discriminate|]. intros e' _. split; [exact Hlt|].
    now apply progressUpTo_below_100.
Qed.

Lemma progress_is_a_prefix_witness :
  exists (σ' : Store) (progress : list R) outcome,
    processImages sampleHost 0 1 sampleOptions
      (storeOf [jonesBaby; brokenBaby] [smithNow; jonesNow]) =
      (σ', progress, outcome) /\
    length progress <= 2 /\
    forall i, i < length progress ->
      progress !! i = Some (INR (i + 1) / INR 2 * 100)%R.
Proof.
  destruct (progress_is_a_prefix sampleHost 0 1 sampleOptions
              (storeOf [jonesBaby; brokenBaby] [smithNow; jonesNow]))
    as (σ' & progress & outcome & Hrun & Hk & Hvalues & _).
  - rewrite storeOf_baby. eexists; reflexivity.
  - rewrite storeOf_current. eexists; reflexivity.
  - now exists σ', progress, outcome.
Defined.

(** X4.  A batch rejects for one of two reasons only: the canvas context is
    missing, or a photo of the input collections failed to load; the error
    then names that photo's side and file name.  No other error comes out of
    [processImages] (the loop never reads past either sorted array). *)
Theorem rejection_reasons h babyPhotos currentPhotos g (σ σ' : Store) progress e :
  is_Some (σ !! babyPhotos) -> is_Some (σ !! currentPhotos) ->
  processImages h babyPhotos currentPhotos g σ = (σ', progress, Rejected e) ->
  (getContext h = false /\ e = "Could not get canvas context") \/
  (exists lf, In lf (readArray babyPhotos σ) /\
     loadImage h (preview lf) = None /\
     e = "Failed to load left image: " +:+ name lf) \/
  (exists rf, In rf (readArray currentPhotos σ) /\
     loadImage h (preview rf) = None /\
     e = "Failed to load right image: " +:+ name rf).
Proof.
  intros Hb Hc Hrun.
  destruct (processImages_shape h babyPhotos currentPhotos g σ Hb Hc)
    as (σ2 & k & Hk & [(rs & Hrun2 & _)|(e2 & Hrun2 & Hlt & Hpair)]);
    rewrite Hrun in Hrun2; [discriminate|].
  injection Hrun2 as _ _ ->.
  unfold pairAt, compositeOf in Hpair.
  destruct (sort (byName h) (readArray babyPhotos σ) !! k) as [lf|] eqn:Hlf;
    [|discriminate].
  destruct (sort (byName h) (readArray currentPhotos σ) !! k) as [rf|] eqn:Hrf;
    [|discriminate].
  injection Hpair as Hpair.
  apply createCombinedImage_rejects in Hpair as [Hctx|[[Hl ->]|[Hr ->]]].
  - now left.
  - right; left. exists lf. split; [|now split].
    apply list_elem_of_lookup_2, list_elem_of_In in Hlf.
    eapply Permutation_in; [symmetry; apply sort_perm | exact Hlf].
  - right; right. exists rf. split; [|now split].
    apply list_elem_of_lookup_2, list_elem_of_In in Hrf.
    eapply Permutation_in; [symmetry; apply sort_perm | exact Hrf].
Qed.

Lemma rejection_reasons_witness :
  exists lf, In lf [jonesBaby; brokenBaby] /\
    loadImage sampleHost (preview lf) = None /\
    "Failed to load left image: Smith_John_01.jpg" =
      "Failed to load left image: " +:+ name lf.
Proof.
  destruct (rejection_reasons sampleHost 0 1 sampleOptions
              (storeOf [jonesBaby; brokenBaby] [smithNow; jonesNow])
              (processImages sampleHost 0 1 sampleOptions
                 (storeOf [jonesBaby; brokenBaby] [smithNow; jonesNow])).1.1
              (processImages sampleHost 0 1 sampleOptions
                 (storeOf [jonesBaby; brokenBaby] [smithNow; jonesNow])).1.2
              "Failed to load left image: Smith_John_01.jpg")
    as [[Hctx _]|[Hleft|(rf & _ & _ & Hmsg)]].
  - rewrite storeOf_baby. eexists; reflexivity.
  - rewrite storeOf_current. eexists; reflexivity.
  - vm_compute. reflexivity.
  - discriminate Hctx.
  - exact Hleft.
  - discriminate Hmsg.
Defined.

Lemma sort_sorted_id {A : Type} (cmp : A -> A -> Z) (l : list A) :
  Sorted (ascending cmp) l -> sort cmp l = l.
Proof.
  induction 1 as [|a l Hl IH Ha]; [reflexivity|].
  simpl. rewrite IH. destruct Ha as [|b l' Hab]; [reflexivity|].
  simpl. unfold ascending in Hab. now rewrite (proj2 (Z.leb_le _ _) Hab).
Qed.

(** X5.  Collections that arrive in name order are paired by their input
    positions: sorting leaves an ascending array as it is (ties included), so
    result [i] pairs input [i] of the left collection with input [i] of the
    right one. *)
Theorem presorted_inputs_pair_by_position h babyPhotos currentPhotos g (σ : Store) :
  is_Some (σ !! babyPhotos) -> is_Some (σ !! currentPhotos) ->
  getContext h = true ->
  let left := readArray babyPhotos σ in
  let right := readArray currentPhotos σ in
  let total := Nat.min (length left) (length right) in
  Sorted (ascending (byName h)) left -> Sorted (ascending (byName h)) right ->
  pairsLoad h left right total ->
  exists (σ' : Store) progress results,
    processImages h babyPhotos currentPhotos g σ = (σ', progress, Resolved results) /\
    length results = total /\
    forall i, i < total ->
      exists lf rf res,
        left !! i = Some lf /\ right !! i = Some rf /\ results !! i = Some res /\
        pname res = formattedName (name lf) /\
        leftPhoto res = preview lf /\ rightPhoto res = preview rf.
Proof.
  intros Hb Hc Hctx left right total HsL HsR Hload.
  pose proof (sort_sorted_id (byName h) left HsL) as EL.
  pose proof (sort_sorted_id (byName h) right HsR) as ER.
  assert (Hload' : pairsLoad h (sort (byName h) left) (sort (byName h) right) total)
    by (now rewrite EL, ER).
  destruct (processImages_succeeds h babyPhotos currentPhotos g σ Hb Hc Hctx Hload')
    as (σ' & results & Hrun & Hlen & Hres & _).
  fold left right total in Hrun, Hlen, Hres. rewrite EL, ER in Hres.
  exists σ', (progressUpTo total 0 total), results.
  split; [exact Hrun|]. split; [exact Hlen|].
  intros i Hi. destruct (Hres i Hi) as (res & Hri & Hpair).
  assert (HiL : i < length left) by (unfold total in Hi; lia).
  assert (HiR : i < length right) by (unfold total in Hi; lia).
  destruct (pairs_resolve h g left right total i Hctx Hload Hi HiL HiR)
    as (lf & rf & res' & Hlf & Hrf & Hpair' & Hn & Hlp & Hrp & _).
  assert (E : Some (Resolved res) = Some (Resolved res')) by (now rewrite <- Hpair, <- Hpair').
  injection E as <-.
  exists lf, rf, res. repeat split; assumption.
Qed.

Lemma presorted_inputs_pair_by_position_witness :
  exists (σ' : Store) progress results,
    processImages sampleHost 0 1 sampleOptions
      (storeOf [jonesBaby; smithBaby] [jonesNow; smithNow; extraNow]) =
      (σ', progress, Resolved results) /\
    length results = 2 /\
    exists res, results !! 1 = Some res /\ leftPhoto res = "blob:1" /\ rightPhoto res = "blob:3".
Proof.
  destruct (presorted_inputs_pair_by_position sampleHost 0 1 sampleOptions
              (storeOf [jonesBaby; smithBaby] [jonesNow; smithNow; extraNow]))
    as (σ' & progress & results & Hrun & Hlen & Hpairs).
  - rewrite storeOf_baby. eexists; reflexivity.
  - rewrite storeOf_current. eexists; reflexivity.
  - reflexivity.
  - repeat constructor; unfold ascending; vm_compute; discriminate.
  - repeat constructor; unfold ascending; vm_compute; discriminate.
  - intros i f _ [Hf|Hf]; apply list_elem_of_lookup_2, list_elem_of_In in Hf;
      unfold readArray in Hf;
      rewrite ?storeOf_baby, ?storeOf_current in Hf; simpl in Hf;
      intuition (subst; eexists; reflexivity).
  - exists σ', progress, results. split; [exact Hrun|]. split; [exact Hlen|].
    destruct (Hpairs 1) as (lf & rf & res & Hlf & Hrf & Hres & _ & Hlp & Hrp).
    { unfold readArray. rewrite storeOf_baby, storeOf_current. simpl. lia. }
    unfold readArray in Hlf, Hrf. rewrite ?storeOf_baby, ?storeOf_current in Hlf, Hrf.
    injection Hlf as <-. injection Hrf as <-. now exists res.
Defined.

(* ------------------------------------------------------------------------- *)
(** * Further properties of the layout *)

Section Layout.
Local Open Scope R_scope.

Ltac apply_steps :=
  rewrite !apply_multiply;
  repeat (rewrite apply_translation || rewrite apply_scaling || rewrite apply_rotation);
  cbn [fst snd].

(** X6.  On the left half, with no transform or the identity one, the photo
    is rendered centred on the centre [(480, 540)] of the half and covers the
    half: its rectangle on the canvas starts at or before [(0, 0)] and ends
    at or after [(960, 1080)]. *)
Theorem left_photo_covers_its_half img t canvas :
  Canvas2D.width canvas = 1920 -> Canvas2D.height canvas = 1080 ->
  Canvas2D.ctm (Canvas2D.state canvas) = Canvas2D.identity ->
  0 < Canvas2D.img_width img -> 0 < Canvas2D.img_height img ->
  t = None \/ t = Some identityTransform ->
  exists st dx dy dw dh,
    Canvas2D.ops (drawImage img 0 t canvas) =
      Canvas2D.ops canvas ++ [Canvas2D.DrawImage st img dx dy dw dh] /\
    Canvas2D.ctm st = Canvas2D.identity /\
    dx <= 0 /\ dy <= 0 /\ 960 <= dx + dw /\ 1080 <= dy + dh /\
    dx + dw / 2 = 480 /\ dy + dh / 2 = 540.
Proof.
  intros Hw Hh Hm Hiw Hih Ht.
  set (r := Canvas2D.img_width img / Canvas2D.img_height img).
  assert (Hr : 0 < r) by (apply Rdiv_lt_0_compat; assumption).
  exists (drawnState canvas 0 t).
  rewrite drawImage_emits. unfold drawnRect. fold r. rewrite Hw, Hh.
  assert (Hctm : Canvas2D.ctm (drawnState canvas 0 t) = Canvas2D.identity).
  { unfold drawnState; cbn [Canvas2D.ctm].
    rewrite (drawnMatrix_identity _ _ _ Hm Ht), <- translation_0.
    apply translation_ext; lra. }
  destruct (Rgt_dec r (1920 / 2 / 1080)) as [Hgt|Hle].
  - do 4 eexists. split; [reflexivity|]. split; [exact Hctm|].
    repeat match goal with |- _ /\ _ => split end; lra.
  - assert (Hcover : 1080 <= 1920 / 2 / r).
    { apply Rmult_le_reg_r with r; [assumption|].
      unfold Rdiv at 1. rewrite Rmult_assoc, Rinv_l by lra. lra. }
    do 4 eexists. split; [reflexivity|]. split; [exact Hctm|].
    repeat match goal with |- _ /\ _ => split end; lra.
Qed.

Lemma left_photo_covers_its_half_witness :
  let img := Canvas2D.mkImage "blob:1" 800 600 in
  exists st dx dy dw dh,
    Canvas2D.ops (drawImage img 0 None blankCanvas) =
      Canvas2D.ops blankCanvas ++ [Canvas2D.DrawImage st img dx dy dw dh] /\
    dx <= 0 /\ 960 <= dx + dw.
Proof.
  intros img.
  destruct (left_photo_covers_its_half img None blankCanvas)
    as (st & dx & dy & dw & dh & Hops & _ & Hx & _ & Hx' & _);
    [reflexivity | reflexivity | reflexivity | simpl; lra | simpl; lra | now left |].
  now exists st, dx, dy, dw, dh.
Defined.

Lemma rotation_period (a : R) (k : nat) :
  Canvas2D.rotation (a + 2 * INR k * PI) = Canvas2D.rotation a.
Proof. unfold Canvas2D.rotation. now rewrite cos_period, sin_period. Qed.

(** X7.  Rotation counts modulo 360 degrees: adding whole turns to a
    transform's rotation changes nothing of what [drawImage] does to the
    canvas. *)
Theorem rotation_modulo_full_turns img x (r s : R) (offset : Point) (k : nat) canvas :
  drawImage img x (Some (mkTransform (r + 360 * INR k) s offset)) canvas =
  drawImage img x (Some (mkTransform r s offset)) canvas.
Proof.
  assert (Hrot : Canvas2D.rotation ((r + 360 * INR k) * PI / 180) =
                 Canvas2D.rotation (r * PI / 180)).
  { replace ((r + 360 * INR k) * PI / 180) with (r * PI / 180 + 2 * INR k * PI) by field.
    apply rotation_period. }
  unfold drawImage, Canvas2D.rotate. cbn [rotation scale position].
  now rewrite Hrot.
Qed.

(** X8.  A scale of 0 collapses the photo: whatever the rotation and the
    offset, every point it is drawn at lands on the centre [(x + 480, 540)]
    of the half. *)
Theorem zero_scale_collapses_photo img x (r : R) (offset : Point) canvas :
  Canvas2D.width canvas = 1920 -> Canvas2D.height canvas = 1080 ->
  Canvas2D.ctm (Canvas2D.state canvas) = Canvas2D.identity ->
  exists st dx dy dw dh,
    Canvas2D.ops (drawImage img x (Some (mkTransform r 0 offset)) canvas) =
      Canvas2D.ops canvas ++ [Canvas2D.DrawImage st img dx dy dw dh] /\
    forall p : R * R, Canvas2D.apply (Canvas2D.ctm st) p = (x + 480, 540).
Proof.
  intros Hw Hh Hm.
  exists (drawnState canvas x (Some (mkTransform r 0 offset))).
  rewrite drawImage_emits.
  destruct (drawnRect canvas img x) as [[[dx dy] dw] dh].
  exists dx, dy, dw, dh. split; [reflexivity|].
  intros [px py]. unfold drawnState; cbn [Canvas2D.ctm].
  rewrite drawnMatrix_order by assumption.
  cbn [rotation scale position]. apply_steps. f_equal; ring.
Qed.

Lemma zero_scale_collapses_photo_witness :
  let img := Canvas2D.mkImage "blob:1" 800 600 in
  exists st dx dy dw dh,
    Canvas2D.ops (drawImage img 0 (Some zeroScale) blankCanvas) =
      Canvas2D.ops blankCanvas ++ [Canvas2D.DrawImage st img dx dy dw dh] /\
    Canvas2D.apply (Canvas2D.ctm st) (dx, dy) = (0 + 480, 540).
Proof.
  intros img.
  destruct (zero_scale_collapses_photo img 0 0 (mkPoint 0 0) blankCanvas)
    as (st & dx & dy & dw & dh & Hops & Hall);
    [reflexivity | reflexivity | reflexivity |].
  exists st, dx, dy, dw, dh. split; [exact Hops|apply Hall].
Defined.

(** X9.  The offset acts in the rotated and scaled frame: compared with the
    same transform without offset, every drawn point moves on the canvas by
    the offset rotated by the transform's angle and multiplied by its
    scale. *)
Theorem offset_is_rotated_and_scaled img x (r s : R) (offset : Point) canvas :
  Canvas2D.width canvas = 1920 -> Canvas2D.height canvas = 1080 ->
  Canvas2D.ctm (Canvas2D.state canvas) = Canvas2D.identity ->
  let a := r * PI / 180 in
  exists st st0 dx dy dw dh,
    Canvas2D.ops (drawImage img x (Some (mkTransform r s offset)) canvas) =
      Canvas2D.ops canvas ++ [Canvas2D.DrawImage st img dx dy dw dh] /\
    Canvas2D.ops (drawImage img x (Some (mkTransform r s (mkPoint 0 0))) canvas) =
      Canvas2D.ops canvas ++ [Canvas2D.DrawImage st0 img dx dy dw dh] /\
    forall p : R * R,
      fst (Canvas2D.apply (Canvas2D.ctm st) p) -
      fst (Canvas2D.apply (Canvas2D.ctm st0) p) =
        s * (cos a * pos_x offset - sin a * pos_y offset) /\
      snd (Canvas2D.apply (Canvas2D.ctm st) p) -
      snd (Canvas2D.apply (Canvas2D.ctm st0) p) =
        s * (sin a * pos_x offset + cos a * pos_y offset).
Proof.
  intros Hw Hh Hm a.
  exists (drawnState canvas x (Some (mkTransform r s offset))),
         (drawnState canvas x (Some (mkTransform r s (mkPoint 0 0)))).
  rewrite !drawImage_emits.
  destruct (drawnRect canvas img x) as [[[dx dy] dw] dh].
  exists dx, dy, dw, dh. split; [reflexivity|]. split; [reflexivity|].
  intros [px py]. unfold drawnState; cbn [Canvas2D.ctm].
  rewrite !drawnMatrix_order by assumption.
  cbn [rotation scale position pos_x pos_y]. fold a. apply_steps. split; ring.
Qed.

Lemma offset_is_rotated_and_scaled_witness :
  let img := Canvas2D.mkImage "blob:1" 800 600 in
  exists st st0 dx dy dw dh,
    Canvas2D.ops (drawImage img 0 (Some (mkTransform 0 2 (mkPoint 10 20))) blankCanvas) =
      Canvas2D.ops blankCanvas ++ [Canvas2D.DrawImage st img dx dy dw dh] /\
    Canvas2D.ops (drawImage img 0 (Some (mkTransform 0 2 (mkPoint 0 0))) blankCanvas) =
      Canvas2D.ops blankCanvas ++ [Canvas2D.DrawImage st0 img dx dy dw dh] /\
    fst (Canvas2D.apply (Canvas2D.ctm st) (0, 0)) -
    fst (Canvas2D.apply (Canvas2D.ctm st0) (0, 0)) = 20.
Proof.
  intros img.
  destruct (offset_is_rotated_and_scaled img 0 0 2 (mkPoint 10 20) blankCanvas)
    as (st & st0 & dx & dy & dw & dh & H1 & H2 & Hmove);
    [reflexivity | reflexivity | reflexivity |].
  exists st, st0, dx, dy, dw, dh. split; [exact H1|]. split; [exact H2|].
  destruct (Hmove (0, 0)) as [Hx _]. rewrite Hx. cbn [pos_x pos_y].
  replace (0 * PI / 180) with 0 by lra. rewrite cos_0, sin_0. lra.
Defined.

End Layout.

(* ------------------------------------------------------------------------- *)
(** * Further properties of the composite *)

Section CompositeOrder.
Local Open Scope R_scope.

(** The calls of the text overlay, with the state they are issued in. *)
Lemma drawText_trace h opts t canvas :
  let anchor :=
    anchorSpec (position_ opts) (Canvas2D.width canvas) (Canvas2D.height canvas)
      (measureText h (textFont opts) t) (size opts) in
  let st0 := Canvas2D.state canvas in
  let st :=
    Canvas2D.mkDrawState (Canvas2D.ctm st0) (orElse (color opts) "#000000")
      (if stroke opts then orElse (strokeColor opts) "#FFFFFF"
       else Canvas2D.strokeStyle st0)
      (if stroke opts
       then if Rlt_dec 0 (numberOrElse (strokeWidth opts) 2)
            then numberOrElse (strokeWidth opts) 2
            else Canvas2D.lineWidth st0
       else Canvas2D.lineWidth st0)
      (textFont opts) in
  Canvas2D.ops (drawText h opts t canvas) =
    Canvas2D.ops canvas ++
    (if stroke opts then [Canvas2D.StrokeText st t (fst anchor) (snd anchor)] else []) ++
    [Canvas2D.FillText st t (fst anchor) (snd anchor)].
Proof.
  intros anchor st0 st. unfold drawText.
  change (measureText h _ t) with (measureText h (textFont opts) t).
  unfold anchor, anchorSpec, st, st0.
  destruct (position_ opts); destruct (stroke opts); cbn;
    first [reflexivity | rewrite <- List.app_assoc; reflexivity].
Qed.

Lemma twoPhotos_state li ri lf rf canvas :
  Canvas2D.state
    (drawImage ri (Canvas2D.width canvas / 2) (transform rf)
       (drawImage li 0 (transform lf) canvas)) = Canvas2D.state canvas.
Proof. now rewrite !drawImage_state. Qed.

(** X10.  Every composite is drawn in the same order: the white background
    over the whole canvas, the left photo, the right photo, then the text
    calls (at most two).  The photos' transforms do not reach the text: each
    text call is issued under the identity matrix. *)
Theorem composite_drawing_order h li ri lf rf topts :
  exists st0 stL stR lx ly lw lh rx ry rw rh textOps,
    Canvas2D.ops (checkBothLoaded h li ri lf rf topts blankCanvas) =
      Canvas2D.FillRect st0 0 0 1920 1080 ::
      Canvas2D.DrawImage stL li lx ly lw lh ::
      Canvas2D.DrawImage stR ri rx ry rw rh :: textOps /\
    Canvas2D.fillStyle st0 = "#FFFFFF" /\
    Canvas2D.ctm st0 = Canvas2D.identity /\
    (length textOps <= 2)%nat /\
    Forall (fun op => exists st, textOpState op = Some st /\
                                 Canvas2D.ctm st = Canvas2D.identity) textOps.
Proof.
  destruct (twoPhotos_ops li ri lf rf blankCanvas)
    as (stL & stR & lx & ly & lw & lh & rx & ry & rw & rh & Hphotos).
  pose proof (twoPhotos_state li ri lf rf blankCanvas) as Hstate.
  rewrite checkBothLoaded_unfold. cbv zeta.
  set (drawn := drawImage ri _ _ _) in *.
  eexists _, stL, stR, lx, ly, lw, lh, rx, ry, rw, rh.
  destruct topts as [opts|].
  - destruct (enabled opts && truthy (text opts))%bool.
    + rewrite drawText_trace, Hphotos, Hstate.
      eexists. split; [cbn; reflexivity|].
      split; [reflexivity|]. split; [reflexivity|].
      destruct (stroke opts); (split; [cbn; lia|]);
        repeat constructor; eexists; (split; [reflexivity|reflexivity]).
    + exists []. rewrite Hphotos.
      split; [reflexivity|]. split; [reflexivity|]. split; [reflexivity|].
      split; [simpl; lia|constructor].
  - exists []. rewrite Hphotos.
    split; [reflexivity|]. split; [reflexivity|]. split; [reflexivity|].
    split; [simpl; lia|constructor].
Qed.



(** X12.  With [enabled] false no text is drawn, whatever the other fields:
    the composite holds the background and the two photos only.  The result
    still records the display name as its text; an explicit text of the
    global options is not kept. *)
Theorem disabled_text_is_not_drawn h g l r (n : string) li ri :
  enabled g = false ->
  getContext h = true ->
  loadImage h (preview l) = Some li -> loadImage h (preview r) = Some ri ->
  exists res canvas st0 stL stR lx ly lw lh rx ry rw rh,
    createCombinedImage h l r n (Some (textOpts g n)) = Resolved res /\
    dataUrl res = toDataURL h canvas /\
    Canvas2D.ops canvas =
      [Canvas2D.FillRect st0 0 0 1920 1080;
       Canvas2D.DrawImage stL li lx ly lw lh;
       Canvas2D.DrawImage stR ri rx ry rw rh] /\
    (text <$> textOptions res) = Some (Some n).
Proof.
  intros Hen Hctx Hl Hr.
  destruct (twoPhotos_ops li ri l r blankCanvas)
    as (stL & stR & lx & ly & lw & lh & rx & ry & rw & rh & Hphotos).
  eexists _, (checkBothLoaded h li ri l r (Some (textOpts g n)) blankCanvas),
    _, stL, stR, lx, ly, lw, lh, rx, ry, rw, rh.
  split; [apply (createCombinedImage_resolves _ _ _ _ _ _ _ Hctx Hl Hr)|].
  split; [reflexivity|]. split.
  - rewrite checkBothLoaded_unfold. cbv zeta.
    cbn [enabled textOpts]. rewrite Hen. cbn [andb].
    rewrite Hphotos. reflexivity.
  - cbn. now rewrite Hen.
Qed.

Lemma disabled_text_is_not_drawn_witness :
  exists res,
    createCombinedImage sampleHost smithBaby smithNow "John Smith"
      (Some (textOpts (mkTextOptions false (Some "Class of 2020") "Arial" 48 false
                         false None TopLeft false None None) "John Smith")) =
      Resolved res /\
    (text <$> textOptions res) = Some (Some "John Smith").
Proof.
  destruct (disabled_text_is_not_drawn sampleHost
              (mkTextOptions false (Some "Class of 2020") "Arial" 48 false
                 false None TopLeft false None None)
              smithBaby smithNow "John Smith"
              (Canvas2D.mkImage "blob:1" 800 600) (Canvas2D.mkImage "blob:3" 800 600))
    as (res & canvas & st0 & stL & stR & lx & ly & lw & lh & rx & ry & rw & rh
        & Hres & _ & _ & Htext);
    [reflexivity | reflexivity | reflexivity | reflexivity |].
  now exists res.
Defined.

End CompositeOrder.

(* ------------------------------------------------------------------------- *)
(** * Further properties of names and of the archive *)

(** X13.  A file name with a single token before "_01" has no first name:
    the template prints the missing token as "undefined", and the display
    name reads "undefined <token>". *)
Theorem single_token_name_reads_undefined (token rest : string) :
  String.index 0 underscore token = None ->
  String.index 0 marker (token +:+ marker +:+ rest) = Some (String.length token) ->
  formattedName (token +:+ marker +:+ rest) = "undefined " +:+ token.
Proof.
  intros Htok Hidx. unfold formattedName.
  rewrite (split_head_index _ _ _ Hidx), substring_0_length_app.
  change (default EmptyString (Some token)) with token.
  now rewrite (split_underscore_last token Htok).
Qed.

Lemma single_token_name_reads_undefined_witness :
  formattedName "Madonna_01.jpg" = "undefined Madonna".
Proof.
  apply (single_token_name_reads_undefined "Madonna" ".jpg"); reflexivity.
Defined.

Section SingleCharacterSeparator.
Context (c : ascii).

Let sep : string := String c EmptyString.

Lemma prefix_char d s :
  String.prefix sep (String d s) = bool_decide (d = c).
Proof.
  unfold sep.
  change (String.prefix (String c EmptyString) (String d s))
    with (if ascii_dec c d then String.prefix EmptyString s else false).
  destruct (ascii_dec c d) as [<-|Hne].
  - rewrite bool_decide_eq_true_2 by reflexivity. now destruct s.
  - rewrite bool_decide_eq_false_2; [reflexivity|congruence].
Qed.

Lemma split_char_token a b :
  String.index 0 sep a = None ->
  split sep (a +:+ sep +:+ b) = a :: split sep b.
Proof.
  unfold split. induction a as [|d a IH]; intros H.
  - change (EmptyString +:+ sep +:+ b) with (String c b).
    cbn [splitFrom]. rewrite prefix_char.
    now rewrite bool_decide_eq_true_2.
  - cbn [String.index] in H.
    change (String d a +:+ sep +:+ b) with (String d (a +:+ sep +:+ b)).
    cbn [splitFrom]. rewrite prefix_char in *.
    destruct (bool_decide (d = c)); [discriminate|].
    destruct (String.index 0 sep a) eqn:E; [discriminate|].
    now rewrite IH.
Qed.

Lemma split_char_last a :
  String.index 0 sep a = None -> split sep a = [a].
Proof.
  unfold split. induction a as [|d a IH]; intros H.
  - reflexivity.
  - cbn [String.index] in H. cbn [splitFrom]. rewrite prefix_char in *.
    destruct (bool_decide (d = c)); [discriminate|].
    destruct (String.index 0 sep a) eqn:E; [discriminate|].
    now rewrite IH.
Qed.

End SingleCharacterSeparator.

(** X14.  The data handed to the archive for an image is the part of its
    data URL between the first comma and the next one (or the end): for a
    data URL [header,payload] it is the payload; anything after a further
    comma is dropped. *)
Theorem zip_data_is_payload (image : ProcessedImage) (header payload more : string) :
  String.index 0 comma header = None ->
  String.index 0 comma payload = None ->
  more = EmptyString \/ (exists m, more = comma +:+ m) ->
  dataUrl image = header +:+ comma +:+ payload +:+ more ->
  data (zipFile image) = Some payload /\
  fileName (zipFile image) = pname image +:+ "_combined.jpg" /\
  base64 (zipFile image) = true.
Proof.
  intros Hh Hp Hmore Hurl. unfold zipFile. cbn [data fileName base64].
  split; [|split; reflexivity].
  rewrite Hurl. unfold comma in *.
  rewrite (split_char_token "," header _ Hh).
  destruct Hmore as [->|[m ->]].
  - rewrite append_empty_r, (split_char_last "," payload Hp). reflexivity.
  - now rewrite (split_char_token "," payload m Hp).
Qed.

Lemma zip_data_is_payload_witness :
  data (zipFile (mkProcessedImage "data:image/jpeg;base64,/9j/4AAQ" "John Smith"
                   "blob:1" "blob:3" None None None)) = Some "/9j/4AAQ".
Proof.
  apply (zip_data_is_payload _ "data:image/jpeg;base64" "/9j/4AAQ" "");
    [reflexivity | reflexivity | now left | reflexivity].
Defined.

(** X15.  A data URL without a comma leaves the archive entry without data:
    [split(',')[1]] is [undefined]. *)
Theorem zip_data_missing_without_comma (image : ProcessedImage) :
  String.index 0 comma (dataUrl image) = None ->
  data (zipFile image) = None.
Proof.
  intros H. unfold zipFile. cbn [data]. unfold comma in *.
  now rewrite (split_char_last "," _ H).
Qed.

Lemma zip_data_missing_without_comma_witness :
  data (zipFile (mkProcessedImage "about:blank" "John Smith"
                   "blob:1" "blob:3" None None None)) = None.
Proof. apply zip_data_missing_without_comma. reflexivity. Defined.

Lemma length_append (a b : string) :
  String.length (a +:+ b) = String.length a + String.length b.
Proof.
  induction a as [|c a IH]; [reflexivity|].
  change (String c a +:+ b) with (String c (a +:+ b)).
  cbn [String.length]. now rewrite IH.
Qed.

Lemma append_cancel_r (s : string) : forall a b, a +:+ s = b +:+ s -> a = b.
Proof.
  induction a as [|c a IH]; intros [|d b] H.
  - reflexivity.
  - apply (f_equal String.length) in H.
    change (EmptyString +:+ s) with s in H.
    rewrite length_append in H. simpl in H. lia.
  - apply (f_equal String.length) in H.
    change (EmptyString +:+ s) with s in H.
    rewrite length_append in H. simpl in H. lia.
  - change (String c (a +:+ s) = String d (b +:+ s)) in H.
    injection H as -> H. f_equal. now apply IH.
Qed.

(** X16.  Two images get the same path in the archive exactly when they have
    the same display name: composites of different people never share a
    path, composites with equal display names always do. *)
Theorem zip_paths_collide_iff_names_do (a b : ProcessedImage) :
  fileName (zipFile a) = fileName (zipFile b) <-> pname a = pname b.
Proof.
  unfold zipFile. cbn [fileName]. split.
  - apply append_cancel_r.
  - now intros ->.
Qed.

(** X17.  Archiving a batch: when the batch resolves, [downloadAsZip] of its
    results makes one archive call per pair, in pair order, under the path
    "<display name>_combined.jpg" of the left photo of that rank, flagged as
    base64, and offers the download as "processed_images.zip". *)
Theorem archive_of_a_batch h babyPhotos currentPhotos g (σ : Store) :
  is_Some (σ !! babyPhotos) -> is_Some (σ !! currentPhotos) ->
  getContext h = true ->
  let left := sort (byName h) (readArray babyPhotos σ) in
  let right := sort (byName h) (readArray currentPhotos σ) in
  let total :=
    Nat.min (length (readArray babyPhotos σ)) (length (readArray currentPhotos σ)) in
  pairsLoad h left right total ->
  exists (σ' : Store) progress results calls,
    processImages h babyPhotos currentPhotos g σ = (σ', progress, Resolved results) /\
    downloadAsZip results = (calls, "processed_images.zip") /\
    length calls = total /\
    forall i, i < total ->
      exists lf call,
        left !! i = Some lf /\ calls !! i = Some call /\
        fileName call = formattedName (name lf) +:+ "_combined.jpg" /\
        base64 call = true.
Proof.
  intros Hb Hc Hctx left right total Hload.
  destruct (processImages_succeeds h babyPhotos currentPhotos g σ Hb Hc Hctx Hload)
    as (σ' & results & Hrun & Hlen & Hres & _).
  exists σ', (progressUpTo total 0 total), results, (zipFile <$> results).
  split; [exact Hrun|]. split; [reflexivity|].
  split; [now rewrite length_fmap|].
  intros i Hi. destruct (Hres i Hi) as (res & Hri & Hpair).
  assert (HiL : i < length left) by (unfold left; rewrite sort_length; unfold total in Hi; lia).
  assert (HiR : i < length right) by (unfold right; rewrite sort_length; unfold total in Hi; lia).
  destruct (pairs_resolve h g left right total i Hctx Hload Hi HiL HiR)
    as (lf & rf & res' & Hlf & Hrf & Hpair' & Hn & _).
  assert (E : Some (Resolved res) = Some (Resolved res')) by (now rewrite <- Hpair, <- Hpair').
  injection E as <-.
  exists lf, (zipFile res). split; [exact Hlf|].
  split; [now rewrite list_lookup_fmap, Hri|].
  unfold zipFile. cbn [fileName base64]. now rewrite Hn.
Qed.

Lemma archive_of_a_batch_witness :
  exists (σ' : Store) progress results calls,
    processImages sampleHost 0 1 sampleOptions sampleStore =
      (σ', progress, Resolved results) /\
    downloadAsZip results = (calls, "processed_images.zip") /\
    length calls = 2.
Proof.
  destruct (archive_of_a_batch sampleHost 0 1 sampleOptions sampleStore)
    as (σ' & progress & results & calls & Hrun & Hzip & Hlen & _).
  - rewrite sampleStore_baby. eexists; reflexivity.
  - rewrite sampleStore_current. eexists; reflexivity.
  - reflexivity.
  - apply pairsLoad_sorted; apply sampleStore_loads.
  - exists σ', progress, results, calls. split; [exact Hrun|]. split; [exact Hzip|].
    rewrite Hlen. unfold readArray.
    now rewrite sampleStore_baby, sampleStore_current.
Defined.

Lemma drawImage_stack img x t canvas :
  Canvas2D.stack (drawImage img x t canvas) = Canvas2D.stack canvas.
Proof. rewrite drawImage_emits. now destruct (drawnRect canvas img x) as [[[? ?] ?] ?]. Qed.

(** X18.  The composite leaves the context balanced: every [save] is matched
    by a [restore], so after all the drawing the stack of saved states, the
    current matrix and the size of the canvas are what they were before. *)
Theorem composite_keeps_context_balanced h li ri lf rf topts canvas :
  let drawn := checkBothLoaded h li ri lf rf topts canvas in
  Canvas2D.stack drawn = Canvas2D.stack canvas /\
  Canvas2D.ctm (Canvas2D.state drawn) = Canvas2D.ctm (Canvas2D.state canvas) /\
  Canvas2D.width drawn = Canvas2D.width canvas /\
  Canvas2D.height drawn = Canvas2D.height canvas.
Proof.
  cbv zeta. rewrite checkBothLoaded_unfold. cbv zeta.
  set (photos := drawImage ri _ _ _).
  assert (Hphotos :
    Canvas2D.stack photos = Canvas2D.stack canvas /\
    Canvas2D.ctm (Canvas2D.state photos) = Canvas2D.ctm (Canvas2D.state canvas) /\
    Canvas2D.width photos = Canvas2D.width canvas /\
    Canvas2D.height photos = Canvas2D.height canvas).
  { unfold photos.
    now rewrite !drawImage_stack, !drawImage_state, !drawImage_width, !drawImage_height. }
  destruct topts as [opts|]; [|exact Hphotos].
  destruct (enabled opts && truthy (text opts))%bool; [|exact Hphotos].
  destruct Hphotos as (Hs & Hm & Hw & Hh). rewrite <- Hs, <- Hm, <- Hw, <- Hh.
  unfold drawText.
  destruct (position_ opts); destruct (stroke opts); repeat split; reflexivity.
Qed.
